(** * LuaPure server: a shallow embedding of [server.js]

    The service has four HTTP routes: a file listing ([/api/repo-files]), a
    file reader ([/api/file-content]), a conversion proxy ([/api/convert])
    and a health probe ([/api/health]).  It exists in two variants that share
    the last two routes: one walks the local file system, the other calls a
    hosting API.

    JavaScript strings are sequences of UTF-16 code units and are modelled as
    lists of numbers; the file system is a finite tree; the two external
    services are functions from the outbound request to what the call
    settles with, and every handler returns the list of outbound calls it
    made next to its HTTP response. *)

From Stdlib Require Import List Arith NArith Bool Ascii String Lia QArith.
From Stdlib Require Import Permutation.
Import ListNotations.

Local Set Warnings "-register-all".
Local Open Scope N_scope.
Local Open Scope list_scope.

(** ** JavaScript strings *)

Module JsString.

Definition jsstr := list N.

(** An ASCII literal as a JavaScript string. *)
Fixpoint str (s : string) : jsstr :=
  match s with
  | EmptyString => []
  | String c r => N_of_ascii c :: str r
  end.

Fixpoint eqb (a b : jsstr) : bool :=
  match a, b with
  | [], [] => true
  | x :: a', y :: b' => (x =? y) && eqb a' b'
  | _, _ => false
  end.

(** [s.startsWith(p)] *)
Fixpoint startsWith (s p : jsstr) {struct p} : bool :=
  match p with
  | [] => true
  | c :: p' =>
      match s with
      | d :: s' => (c =? d) && startsWith s' p'
      | [] => false
      end
  end.

(** [s.endsWith(p)] *)
Definition endsWith (s p : jsstr) : bool := startsWith (rev s) (rev p).

(** [arr.includes(s)] on an array of strings *)
Definition includes (arr : list jsstr) (s : jsstr) : bool :=
  existsb (eqb s) arr.

(** WhiteSpace and LineTerminator code units, the set [String.prototype.trim]
    removes. *)
Definition is_space (c : N) : bool :=
  (c =? 9) || (c =? 10) || (c =? 11) || (c =? 12) || (c =? 13) || (c =? 32)
  || (c =? 160) || (c =? 5760) || ((8192 <=? c) && (c <=? 8202))
  || (c =? 8232) || (c =? 8233) || (c =? 8239) || (c =? 8287)
  || (c =? 12288) || (c =? 65279).

Fixpoint trimStart (s : jsstr) : jsstr :=
  match s with
  | c :: r => if is_space c then trimStart r else s
  | [] => []
  end.

Definition trimEnd (s : jsstr) : jsstr := rev (trimStart (rev s)).

(** [s.trim()] *)
Definition trim (s : jsstr) : jsstr := trimEnd (trimStart s).

(** [s.slice(n)] and [s.slice(0, s.length - n)] *)
Definition dropStart (n : nat) (s : jsstr) : jsstr := skipn n s.
Definition dropEnd (n : nat) (s : jsstr) : jsstr := rev (skipn n (rev s)).

(** [s.replace(/c/g, d)] for single code units *)
Definition replaceAll (c d : N) (s : jsstr) : jsstr :=
  map (fun x => if x =? c then d else x) s.

(** [arr.join(sep)] *)
Fixpoint join (sep : jsstr) (arr : list jsstr) : jsstr :=
  match arr with
  | [] => []
  | [a] => a
  | a :: rest => a ++ sep ++ join sep rest
  end.

(** [s.split(c)] for a single code unit [c]: never an empty array, the
    empty text gives one empty segment. *)
Fixpoint split (c : N) (s : jsstr) : list jsstr :=
  match s with
  | [] => [[]]
  | x :: r =>
      if x =? c then [] :: split c r
      else match split c r with
           | seg :: segs => (x :: seg) :: segs
           | [] => [[x]]
           end
  end.

(** Truthiness of a string, and of a value that is a string or [undefined]. *)
Definition truthy (s : jsstr) : bool :=
  match s with [] => false | _ :: _ => true end.

Definition truthy_opt (o : option jsstr) : bool :=
  match o with Some s => truthy s | None => false end.

(** [o || d] for [o] a string or [undefined] and [d] a string *)
Definition or_else (o : option jsstr) (d : jsstr) : jsstr :=
  match o with
  | Some ((_ :: _) as s) => s
  | _ => d
  end.

(** Template-literal interpolation [`${o}`] of a string or [undefined]. *)
Definition interpolate (o : option jsstr) : jsstr :=
  match o with Some s => s | None => str "undefined" end.

Lemma eqb_eq (a b : jsstr) : eqb a b = true <-> a = b.
Proof.
  revert b; induction a as [|x a IH]; intros [|y b]; simpl;
    try (split; [discriminate | discriminate]); try tauto.
  rewrite andb_true_iff, N.eqb_eq, IH.
  split; [intros [-> ->]; reflexivity | intros H; inversion H; auto].
Qed.

Lemma eqb_refl (a : jsstr) : eqb a a = true.
Proof. apply eqb_eq; reflexivity. Qed.

Lemma startsWith_app (p s : jsstr) : startsWith (p ++ s) p = true.
Proof.
  induction p as [|c p IH]; simpl; [reflexivity|].
  now rewrite N.eqb_refl.
Qed.

Lemma startsWith_prefix (s p : jsstr) :
  startsWith s p = true <-> exists r, s = p ++ r.
Proof.
  revert s; induction p as [|c p IH]; intros s; simpl.
  - split; [exists s; reflexivity | reflexivity].
  - destruct s as [|d s].
    + split; [discriminate | intros [r H]; discriminate].
    + rewrite andb_true_iff, N.eqb_eq, IH. split.
      * intros [-> [r ->]]. exists r; reflexivity.
      * intros [r H]. inversion H; subst. split; [reflexivity | eauto].
Qed.

Lemma trimStart_idem (s : jsstr) : trimStart (trimStart s) = trimStart s.
Proof.
  induction s as [|c r IH]; simpl; [reflexivity|].
  destruct (is_space c) eqn:E; [exact IH | simpl; now rewrite E].
Qed.

(** What [trimStart] leaves is a suffix starting with a non-space. *)
Lemma trimStart_head (s : jsstr) :
  match trimStart s with c :: _ => is_space c = false | [] => True end.
Proof.
  induction s as [|c r IH]; simpl; [exact I|].
  destruct (is_space c) eqn:E; [exact IH | exact E].
Qed.

(** Trimming the end leaves the first code unit in place when it is not a
    space. *)
Lemma trimStart_rev_keeps_head (c : N) (r : jsstr) :
  is_space c = false ->
  exists r', rev (trimStart (rev (c :: r))) = c :: r'.
Proof.
  intros Hc. simpl rev.
  generalize (rev r) as t. intros t.
  induction t as [|d t IH]; simpl.
  - rewrite Hc. simpl. eauto.
  - destruct (is_space d).
    + exact IH.
    + simpl. rewrite rev_app_distr. simpl. eauto.
Qed.

Lemma trim_idem (s : jsstr) : trim (trim s) = trim s.
Proof.
  unfold trim, trimEnd.
  pose proof (trimStart_head s) as Hh.
  destruct (trimStart s) as [|c r] eqn:E; [reflexivity|].
  destruct (trimStart_rev_keeps_head c r Hh) as [r' Hr].
  rewrite Hr. simpl trimStart at 2. rewrite Hh.
  rewrite <- Hr. rewrite rev_involutive, trimStart_idem. reflexivity.
Qed.

End JsString.
Import JsString.

(** ** Cleaning the completion text

    The handler removes, in this order, the first match of [/^```lua\n?/i],
    of [/^```\n?/i] and of [/\n?```$/i], and trims what is left.

    None of the three patterns has the [g] or [m] flag: each removes at most
    one match, [^] is the start of the text and [$] its end. *)

Module Fence.

Definition nl : N := 10.
Definition fence : jsstr := str "```".

(** Canonicalisation of the [i] flag.  The patterns hold ASCII only, and a
    code unit from 128 up never canonicalises to an ASCII one, so only the
    ASCII letters matter. *)
Definition canon (c : N) : N :=
  if (97 <=? c) && (c <=? 122) then c - 32 else c.

Fixpoint startsWith_ci (s p : jsstr) {struct p} : bool :=
  match p with
  | [] => true
  | c :: p' =>
      match s with
      | d :: s' => (canon c =? canon d) && startsWith_ci s' p'
      | [] => false
      end
  end.

(** The optional [\n] after a leading match. *)
Definition skip_nl (s : jsstr) : jsstr :=
  match s with
  | c :: r => if c =? nl then r else s
  | [] => []
  end.

(** [.replace(/^```lua\n?/i, empty)] *)
Definition strip_lua_fence (s : jsstr) : jsstr :=
  if startsWith_ci s (str "```lua") then skip_nl (dropStart 6 s) else s.

(** [.replace(/^```\n?/i, empty)] *)
Definition strip_open_fence (s : jsstr) : jsstr :=
  if startsWith_ci s fence then skip_nl (dropStart 3 s) else s.

(** [.replace(/\n?```$/i, empty)]: the leftmost match takes the newline when
    there is one. *)
Definition strip_close_fence (s : jsstr) : jsstr :=
  if endsWith s (nl :: fence) then dropEnd 4 s
  else if endsWith s fence then dropEnd 3 s
  else s.

Definition strip_fences (s : jsstr) : jsstr :=
  trim (strip_close_fence (strip_open_fence (strip_lua_fence s))).

(** [luaCode], from the text of the first completion. *)
Definition clean_completion (content : jsstr) : jsstr :=
  strip_fences (trim content).

(** A dialect tag: [lua] in any letter case. *)
Definition is_lua_tag (t : jsstr) : bool :=
  Nat.eqb (List.length t) 3 && startsWith_ci t (str "lua").

(** The text [body] between an opening fence carrying [tag] and a closing
    fence, each on a line of its own. *)
Definition fenced (tag body : jsstr) : jsstr :=
  fence ++ tag ++ nl :: body ++ nl :: fence.

End Fence.
Import Fence.

Example clean_spec_scenario :
  clean_completion (str "```lua" ++ nl :: str "print(hi)" ++ nl :: fence)
  = str "print(hi)".
Proof. reflexivity. Qed.

Module FenceFacts.

Lemma endsWith_app (s p : jsstr) : endsWith (s ++ p) p = true.
Proof. unfold endsWith. rewrite rev_app_distr. apply startsWith_app. Qed.

Lemma dropEnd_app (s p : jsstr) : dropEnd (List.length p) (s ++ p) = s.
Proof.
  unfold dropEnd. rewrite rev_app_distr, <- length_rev.
  rewrite skipn_app, skipn_all, Nat.sub_diag. simpl.
  apply rev_involutive.
Qed.

Lemma strip_close_fence_closing (b : jsstr) :
  strip_close_fence (b ++ nl :: fence) = b.
Proof.
  unfold strip_close_fence. rewrite endsWith_app.
  exact (dropEnd_app b (nl :: fence)).
Qed.

(** A text directly followed by a newline starts with a fence only if the
    text itself does. *)
Lemma open_fence_before_nl (b r : jsstr) :
  startsWith_ci (b ++ nl :: r) fence = startsWith_ci b fence.
Proof.
  destruct b as [|x [|y [|z b]]]; cbn; try reflexivity;
    repeat match goal with
           | |- context [96 =? canon ?c] => destruct (96 =? canon c)
           end; reflexivity.
Qed.

Lemma strip_open_fence_none (s : jsstr) :
  startsWith_ci s fence = false -> strip_open_fence s = s.
Proof. unfold strip_open_fence. now intros ->. Qed.

Lemma startsWith_ci_shorter (s p q : jsstr) :
  startsWith_ci s (p ++ q) = true -> startsWith_ci s p = true.
Proof.
  revert s; induction p as [|c p IH]; intros s; simpl; [reflexivity|].
  destruct s as [|d s]; [discriminate|].
  intros H. apply andb_prop in H as [-> H]. exact (IH _ H).
Qed.

Lemma strip_lua_fence_none (s : jsstr) :
  startsWith_ci s fence = false -> strip_lua_fence s = s.
Proof.
  unfold strip_lua_fence. intros H.
  destruct (startsWith_ci s (str "```lua")) eqn:E; [|reflexivity].
  apply (startsWith_ci_shorter s fence (str "lua")) in E. congruence.
Qed.

Lemma strip_lua_fence_tagged (tag r : jsstr) :
  is_lua_tag tag = true ->
  strip_lua_fence (fence ++ tag ++ nl :: r) = r.
Proof.
  unfold is_lua_tag. intros H. apply andb_prop in H as [Hl Ht].
  destruct tag as [|a [|b [|c [|d tag]]]]; try discriminate.
  unfold strip_lua_fence. cbn in Ht |- *. rewrite Ht. reflexivity.
Qed.

Lemma strip_lua_fence_untagged (r : jsstr) :
  strip_lua_fence (fence ++ nl :: r) = fence ++ nl :: r.
Proof. reflexivity. Qed.

Lemma strip_open_fence_untagged (r : jsstr) :
  strip_open_fence (fence ++ nl :: r) = r.
Proof. reflexivity. Qed.

Lemma startsWith_shorter (s p q : jsstr) :
  startsWith s (p ++ q) = true -> startsWith s p = true.
Proof.
  rewrite !startsWith_prefix. intros [r ->]. exists (q ++ r).
  now rewrite app_assoc.
Qed.

(** Neither pattern anchored at the end matches a text that does not end
    with a fence. *)
Lemma strip_close_fence_none (s : jsstr) :
  endsWith s fence = false -> strip_close_fence s = s.
Proof.
  unfold strip_close_fence. intros H. rewrite H.
  destruct (endsWith s (nl :: fence)) eqn:E; [|reflexivity].
  unfold endsWith in E, H. change (rev (nl :: fence)) with (rev fence ++ [nl]) in E.
  apply startsWith_shorter in E. congruence.
Qed.

End FenceFacts.

(** ** Node's [path] module, POSIX flavour

    [path.join] and [path.relative] belong to the platform; they are modelled
    after [lib/path.js].  [normalizeString] scans the text once and keeps a
    stack of segments; the model works on the segments between separators. *)

Module Path.

Definition sep : N := 47.
Definition dot : jsstr := str ".".
Definition dotdot : jsstr := str "..".

(** [normalizeString(path, allowAboveRoot, "/", isPosixPathSeparator)] on the
    segments of [path]; [res] is the stack, last segment first.  An empty
    segment and [.] are dropped; [..] removes the last segment unless that is
    itself [..] or the stack is empty, where it is kept only above a
    relative path. *)
Fixpoint normalizeSegments (allowAboveRoot : bool) (segs res : list jsstr)
  : list jsstr :=
  match segs with
  | [] => rev res
  | seg :: rest =>
      if eqb seg [] || eqb seg dot then
        normalizeSegments allowAboveRoot rest res
      else if eqb seg dotdot then
        match res with
        | top :: res' =>
            if eqb top dotdot then
              normalizeSegments allowAboveRoot rest
                (if allowAboveRoot then dotdot :: res else res)
            else normalizeSegments allowAboveRoot rest res'
        | [] =>
            normalizeSegments allowAboveRoot rest
              (if allowAboveRoot then [dotdot] else [])
        end
      else normalizeSegments allowAboveRoot rest (seg :: res)
  end.

Definition normalizeString (path : jsstr) (allowAboveRoot : bool) : jsstr :=
  JsString.join [sep] (normalizeSegments allowAboveRoot (split sep path) []).

Definition isAbsolute (path : jsstr) : bool := startsWith path [sep].

(** [path.normalize(path)] *)
Definition normalize (path : jsstr) : jsstr :=
  match path with
  | [] => dot
  | _ :: _ =>
      let trailingSeparator := endsWith path [sep] in
      match normalizeString path (negb (isAbsolute path)) with
      | [] =>
          if isAbsolute path then [sep]
          else if trailingSeparator then str "./" else dot
      | p =>
          let p := if trailingSeparator then p ++ [sep] else p in
          if isAbsolute path then sep :: p else p
      end
  end.

(** [path.join(...args)]: the non-empty arguments joined by [/], then
    normalised. *)
Definition join (args : list jsstr) : jsstr :=
  match filter truthy args with
  | [] => dot
  | parts => normalize (JsString.join [sep] parts)
  end.

(** [path.resolve(path)], in a process whose working directory is [cwd]. *)
Definition resolve (cwd path : jsstr) : jsstr :=
  let resolvedPath :=
    if isAbsolute path then path ++ [sep]
    else if truthy path then cwd ++ sep :: path ++ [sep]
    else cwd ++ [sep] in
  sep :: normalizeString resolvedPath false.

(** The segments of a resolved path. *)
Definition segments (path : jsstr) : list jsstr :=
  filter truthy (split sep path).

Fixpoint dropCommon (a b : list jsstr) : list jsstr * list jsstr :=
  match a, b with
  | x :: a', y :: b' => if eqb x y then dropCommon a' b' else (a, b)
  | _, _ => (a, b)
  end.

(** [path.relative(from, to)]: one [..] for each segment of [from] below the
    longest common directory, then what is left of [to]. *)
Definition relative (cwd from to : jsstr) : jsstr :=
  if eqb from to then []
  else
    let from := resolve cwd from in
    let to := resolve cwd to in
    if eqb from to then []
    else
      let (up, down) := dropCommon (segments from) (segments to) in
      JsString.join [sep] (map (fun _ => dotdot) up ++ down).

End Path.

Example join_sibling :
  Path.join [str "/srv/app"; str "../app-secret/key.txt"]
  = str "/srv/app-secret/key.txt".
Proof. reflexivity. Qed.

Example join_parent :
  Path.join [str "/srv/app"; str "../../etc/passwd"] = str "/etc/passwd".
Proof. reflexivity. Qed.

Example join_messy :
  Path.join [str "/srv/app"; str "a//b/./c/../d/"] = str "/srv/app/a/b/d/".
Proof. reflexivity. Qed.

Example join_above_root :
  Path.join [str "/srv/app"; str "../../../.."] = str "/".
Proof. reflexivity. Qed.

Example join_relative_above :
  Path.join [str "a"; str "../../b"] = str "../b".
Proof. reflexivity. Qed.

Example relative_to_base :
  Path.relative (str "/") (str "/srv/app") (str "/srv/app/lib/a.txt")
  = str "lib/a.txt".
Proof. reflexivity. Qed.

Example relative_sideways :
  Path.relative (str "/") (str "/a/b") (str "/a/bc") = str "../bc".
Proof. reflexivity. Qed.

(** ** Values and exceptions *)

(** JSON values, as a parsed body holds them ([VUndefined] for a member
    that is not there).  Numbers are kept to the integers. *)
Inductive value :=
| VUndefined
| VNull
| VBool (b : bool)
| VNum (n : Z)
| VStr (s : jsstr)
| VArr (items : list value)
| VObj (members : list (jsstr * value)).

Record upstream_response := {
  resp_status : N;
  resp_data : value
}.

Record js_error := {
  err_message : jsstr;
  err_response : option upstream_response
}.

(** What is thrown is an [Error] with its [message] and, for a failed HTTP
    call, the [response] the client library attaches; an error raised
    inside the process carries no [response]. *)
Definition plain_error (message : jsstr) : js_error :=
  {| err_message := message; err_response := None |}.

Inductive result (A : Type) :=
| Ok (a : A)
| Throw (err : js_error).
Arguments Ok {A} a.
Arguments Throw {A} err.

Definition bind {A B} (m : result A) (k : A -> result B) : result B :=
  match m with
  | Ok a => k a
  | Throw e => Throw e
  end.

Declare Scope js_scope.
Delimit Scope js_scope with js.
Notation "x <- m ;; k" := (bind m (fun x => k))
  (at level 61, m at next level, right associativity) : js_scope.

(** [try { body } catch (err) { handler }] *)
Definition try_catch {A} (body : result A) (handler : js_error -> A) : A :=
  match body with
  | Ok a => a
  | Throw e => handler e
  end.

(** ** The file system: a finite tree *)

Module Fs.

Inductive node :=
| File (size : N) (content : jsstr)
| Dir (entries : list (jsstr * node))
| Locked (message : jsstr)   (* a directory [readdirSync] throws on *)
| Broken (message : jsstr).  (* an entry [statSync] throws on *)

Fixpoint find (name : jsstr) (entries : list (jsstr * node)) : option node :=
  match entries with
  | [] => None
  | (f, n) :: rest => if eqb f name then Some n else find name rest
  end.

(** The node a list of segments leads to. *)
Fixpoint lookup (n : node) (segs : list jsstr) : option node :=
  match segs with
  | [] => Some n
  | s :: rest =>
      match n with
      | Dir entries =>
          match find s entries with
          | Some child => lookup child rest
          | None => None
          end
      | _ => None
      end
  end.

Definition enoent (syscall path : jsstr) : jsstr :=
  str "ENOENT: no such file or directory, " ++ syscall ++ str " '" ++ path
  ++ str "'".

Definition enotdir (syscall path : jsstr) : jsstr :=
  str "ENOTDIR: not a directory, " ++ syscall ++ str " '" ++ path ++ str "'".

Definition eisdir : jsstr := str "EISDIR: illegal operation on a directory, read".

(** The segments go on after a regular file has been reached. *)
Fixpoint through_file (n : node) (segs : list jsstr) : bool :=
  match segs with
  | [] => false
  | s :: rest =>
      match n with
      | File _ _ => true
      | Dir entries =>
          match find s entries with
          | Some child => through_file child rest
          | None => false
          end
      | _ => false
      end
  end.

(** [fs.readFileSync(path, "utf-8")] for an absolute [path]; the content of
    a file is kept as its decoded text.  A path that ends in a separator
    names a directory: opening it fails when a regular file is there, as it
    does when the path goes on through a regular file. *)
Definition readFileSync (root : node) (path : jsstr) : result jsstr :=
  match lookup root (Path.segments path) with
  | Some (File _ content) =>
      if endsWith path [Path.sep]
      then Throw (plain_error (enotdir (str "open") path))
      else Ok content
  | Some (Dir _) => Throw (plain_error eisdir)
  | Some (Locked _) => Throw (plain_error eisdir)
  | Some (Broken message) => Throw (plain_error message)
  | None =>
      if through_file root (Path.segments path)
      then Throw (plain_error (enotdir (str "open") path))
      else Throw (plain_error (enoent (str "open") path))
  end.

(** [fs.readdirSync(path)] for an absolute [path]: the names, each with the
    node [statSync] will see under it. *)
Definition readdirSync (root : node) (path : jsstr)
  : result (list (jsstr * node)) :=
  match lookup root (Path.segments path) with
  | Some (Dir entries) => Ok entries
  | Some (File _ _) => Throw (plain_error (enotdir (str "scandir") path))
  | Some (Locked message) => Throw (plain_error message)
  | Some (Broken message) => Throw (plain_error message)
  | None => Throw (plain_error (enoent (str "scandir") path))
  end.

End Fs.
Import Fs.

(** ** The host the service runs on *)

Record host := {
  dirname : jsstr;               (* [__dirname], an absolute path *)
  cwd : jsstr;                   (* [process.cwd()] *)
  root : node;                   (* the directory [/] *)
  GROQ_API_KEY : option jsstr    (* [process.env.GROQ_API_KEY] *)
}.

(** ** Responses

    The bodies handed to [res.json].  A member whose value is [undefined]
    is left out of the JSON text that is sent: [None] stands for a member
    that is not there. *)

Record FileEntry := {
  path : jsstr;
  size : option N;
  sha : option jsstr
}.

Inductive body :=
| Files (files : list FileEntry) (total : nat)
| Content (content path : jsstr)
| Converted (convertedCode : jsstr) (filePath : option jsstr)
| Health (status : jsstr) (groqConfigured : bool)
| Error (error : value).

Record response := {
  status : N;
  json : body
}.

(** [res.json(b)] and [res.status(s).json(b)] *)
Definition res_json (b : body) : response := {| status := 200; json := b |}.
Definition res_status (s : N) (b : body) : response :=
  {| status := s; json := b |}.

(** [x < 500000] for a number or [undefined]: a comparison with [undefined]
    is false. *)
Definition below_ceiling (x : option N) : bool :=
  match x with
  | Some n => n <? 500000
  | None => false
  end.

(** ** Tree Enumerator, local variant *)

Module Enumerator.

Definition skipDirs : list jsstr :=
  [str "node_modules"; str ".git"; str "public"; str ".vscode"; str ".github"].

Definition skipFiles : list jsstr :=
  [str ".env"; str ".env.example"; str "package-lock.json"; str ".gitignore";
   str ".DS_Store"].

(** The entry pushed for a file: its path relative to [baseDir], with every
    backslash turned into a slash, and its size. *)
Definition entry (cwd baseDir fullPath : jsstr) (size : N) : FileEntry :=
  {| path := replaceAll 92 47 (Path.relative cwd baseDir fullPath);
     size := Some size;
     sha := None |}.

Section Walk.

Variables cwd baseDir : jsstr.

(** The callback of [files.forEach], for the name [file] read in [dirPath]
    and the node found under it.  [statSync] comes first, for every name;
    the recursive call reads the directory it is given. *)
Fixpoint visit (dirPath file : jsstr) (n : node) (arrayOfFiles : list FileEntry)
  {struct n} : result (list FileEntry) :=
  let fullPath := Path.join [dirPath; file] in
  match n with
  | Broken message => Throw (plain_error message)
  | Dir entries =>
      if negb (includes skipDirs file) then
        (fix forEach (files : list (jsstr * node)) (arrayOfFiles : list FileEntry)
           : result (list FileEntry) :=
           match files with
           | [] => Ok arrayOfFiles
           | (f, child) :: rest =>
               match visit fullPath f child arrayOfFiles with
               | Ok arrayOfFiles => forEach rest arrayOfFiles
               | Throw e => Throw e
               end
           end) entries arrayOfFiles
      else Ok arrayOfFiles
  | Locked message =>
      if negb (includes skipDirs file) then Throw (plain_error message)
      else Ok arrayOfFiles
  | File size _ =>
      if negb (startsWith file (str ".")) && negb (includes skipFiles file)
      then Ok (arrayOfFiles ++ [entry cwd baseDir fullPath size])
      else Ok arrayOfFiles
  end.

(** [getAllFiles(dirPath, arrayOfFiles, baseDir)], given what
    [fs.readdirSync(dirPath)] returned. *)
Fixpoint getAllFiles (dirPath : jsstr) (files : list (jsstr * node))
  (arrayOfFiles : list FileEntry) : result (list FileEntry) :=
  match files with
  | [] => Ok arrayOfFiles
  | (f, child) :: rest =>
      match visit dirPath f child arrayOfFiles with
      | Ok arrayOfFiles => getAllFiles dirPath rest arrayOfFiles
      | Throw e => Throw e
      end
  end.

End Walk.

(** [GET /api/repo-files], local variant *)
Definition repo_files (h : host) : response :=
  try_catch
    (let repoDir := dirname h in
     files <- readdirSync (root h) repoDir ;;
     files <- getAllFiles (cwd h) repoDir repoDir files [] ;;
     let filtered := filter (fun f => below_ceiling (size f)) files in
     Ok (res_json (Files filtered (List.length filtered))))%js
    (fun err => res_status 500 (Error (VStr (err_message err)))).

End Enumerator.

(** The end-to-end scenario of the specification. *)
Definition scenario_entries : list (jsstr * node) :=
  [(str "a.txt", File 10 (str "0123456789"));
   (str ".env", File 5 (str "K=abc"));
   (str "node_modules", Dir [(str "x.js", File 5 (str "x = 1"))])].

Definition scenario_root : node :=
  Dir [(str "srv", Dir [(str "app", Dir scenario_entries)])].

Definition scenario_host : host :=
  {| dirname := str "/srv/app"; cwd := str "/srv/app"; root := scenario_root;
     GROQ_API_KEY := None |}.

Example scenario_listing :
  Enumerator.repo_files scenario_host
  = res_json (Files [{| path := str "a.txt"; size := Some 10; sha := None |}] 1).
Proof. reflexivity. Qed.

(** ** Content Fetcher, local variant *)

Module Fetcher.

(** [GET /api/file-content]; [query_path] is [req.query.path], a string or
    [undefined]. *)
Definition file_content (h : host) (query_path : option jsstr) : response :=
  try_catch
    (match query_path with
     | None | Some [] =>
         Ok (res_status 400 (Error (VStr (str "Missing path"))))
     | Some filePath =>
         let fullPath := Path.join [dirname h; filePath] in
         if negb (startsWith fullPath (dirname h)) then
           Ok (res_status 403 (Error (VStr (str "Access denied"))))
         else
           content <- readFileSync (root h) fullPath ;;
           Ok (res_json (Content content filePath))
     end)%js
    (fun err => res_status 500 (Error (VStr (err_message err)))).

(** A location lies within a directory when it is the directory, or its path
    goes on from the directory's after a separator. *)
Definition within (dir location : jsstr) : bool :=
  eqb location dir
  || startsWith location (if eqb dir [Path.sep] then dir else dir ++ [Path.sep]).

End Fetcher.

(** ** The external services

    A call settles with the parsed body of a 2xx response, or is rejected
    with an error. *)

Inductive outcome (A : Type) :=
| Resolved (data : A)
| Rejected (err : js_error).
Arguments Resolved {A} data.
Arguments Rejected {A} err.

(** A handler that awaits: the calls it made, and its response. *)
Definition served (call : Type) : Type := list call * response.

(** Reading members of a parsed body. *)
Module Json.

Fixpoint assoc (k : jsstr) (members : list (jsstr * value)) : value :=
  match members with
  | [] => VUndefined
  | (k', v) :: rest => if eqb k' k then v else assoc k rest
  end.

(** [v.k] on a value that is neither [null] nor [undefined], for a key that
    is not an index or a built-in member. *)
Definition member (v : value) (k : jsstr) : value :=
  match v with
  | VObj members => assoc k members
  | _ => VUndefined
  end.

Definition nullish (v : value) : bool :=
  match v with
  | VUndefined | VNull => true
  | _ => false
  end.

(** [v?.k] *)
Definition opt_member (v : value) (k : jsstr) : value :=
  if nullish v then VUndefined else member v k.

Definition type_name (v : value) : jsstr :=
  match v with VNull => str "null" | _ => str "undefined" end.

(** [v.k], which throws a [TypeError] on [null] and [undefined] (the text is
    V8's). *)
Definition get (v : value) (k : jsstr) : result value :=
  if nullish v then
    Throw (plain_error (str "Cannot read properties of " ++ type_name v
                        ++ str " (reading '" ++ k ++ str "')"))
  else Ok (member v k).

(** [v[0]] *)
Definition get0 (v : value) : result value :=
  match v with
  | VArr (x :: _) => Ok x
  | VStr (c :: _) => Ok (VStr [c])
  | VObj members => Ok (assoc (str "0") members)
  | _ => get v (str "0")
  end.

Definition truthy (v : value) : bool :=
  match v with
  | VUndefined | VNull => false
  | VBool b => b
  | VNum n => negb (n =? 0)%Z
  | VStr s => JsString.truthy s
  | VArr _ | VObj _ => true
  end.

(** [a || b] *)
Definition or (a b : value) : value := if truthy a then a else b.

End Json.

(** ** Tree Enumerator, remote variant *)

Module Remote.

Record tree_item := {
  item_type : jsstr;
  item_path : jsstr;
  item_size : option N;
  item_sha : option jsstr
}.

Record tree_request := {
  tree_url : jsstr;
  tree_user_agent : jsstr
}.

Record repo_query := {
  owner : option jsstr;
  repo : option jsstr;
  branch : option jsstr
}.

(** The [catch] block of both hosting-API routes. *)
Definition failure (err : js_error) : response :=
  let data :=
    match err_response err with
    | Some r => resp_data r
    | None => VUndefined
    end in
  let msg := Json.or (Json.opt_member data (str "message"))
                     (VStr (err_message err)) in
  let st :=
    match err_response err with
    | Some r => if resp_status r =? 0 then 500 else resp_status r
    | None => 500
    end in
  res_status st (Error msg).

(** The request for the recursive tree of [owner/repo] at [branch]. *)
Definition tree_request_for (q : repo_query) : tree_request :=
  let branchName := or_else (branch q) (str "main") in
  {| tree_url :=
       str "https://api.github.com/repos/" ++ interpolate (owner q)
       ++ str "/" ++ interpolate (repo q) ++ str "/git/trees/"
       ++ branchName ++ str "?recursive=1";
     tree_user_agent := str "LuaPure-App" |}.

Definition file_entry (item : tree_item) : FileEntry :=
  {| path := item_path item; size := item_size item; sha := item_sha item |}.

(** [GET /api/repo-files], remote variant; [github] is the hosting API. *)
Definition repo_files (github : tree_request -> outcome (list tree_item))
  (q : repo_query) : served tree_request :=
  if negb (truthy_opt (owner q)) || negb (truthy_opt (repo q)) then
    ([], res_status 400 (Error (VStr (str "Missing owner or repo"))))
  else
    let call := tree_request_for q in
    ([call],
     try_catch
       (match github call with
        | Resolved tree =>
            let files :=
              map file_entry
                (filter (fun item => below_ceiling (item_size item))
                   (filter (fun item => eqb (item_type item) (str "file"))
                      tree)) in
            Ok (res_json (Files files (List.length files)))
        | Rejected err => Throw err
        end)
       failure).

End Remote.

(** ** Conversion Proxy and Health Reporter (both variants) *)

Module Proxy.

(** [req.body] of [POST /api/convert]: each field a string or [undefined]. *)
Record convert_body := {
  filePath : option jsstr;
  code : option jsstr;
  originalLang : option jsstr
}.

Record message := {
  role : jsstr;
  content : jsstr
}.

(** What [axios.post] is given. *)
Record completion_request := {
  url : jsstr;
  model : jsstr;
  messages : list message;
  temperature : Q;
  max_tokens : N;
  authorization : jsstr;
  content_type : jsstr
}.

Definition prompt (b : convert_body) (code : jsstr) : jsstr :=
  str "You are a Lua code conversion expert. Convert the following "
  ++ or_else (originalLang b) (str "code")
  ++ str " into pure Lua 5.1 code.

Rules:
- Output ONLY the converted Lua code. No explanations, no markdown, no comments unless they are necessary.
- The converted code must be valid Lua 5.1 syntax.
- Make it functional and preserve the original logic as much as possible.
- If something cannot be directly translated to Lua, find the closest Lua equivalent.
- Do NOT use any external libraries or modules that are not part of Lua 5.1 standard library.
- If the file is a build config or tool-specific file (like Cargo.toml, package.json), convert its logic/purpose into a Lua script that achieves the same goal where possible.

Original file: " ++ interpolate (filePath b)
  ++ str "
Original language: " ++ or_else (originalLang b) (str "unknown")
  ++ str "

Code to convert:
```
" ++ code ++ str "
```

Converted Lua 5.1 code:".

Definition request_for (key : jsstr) (b : convert_body) (code : jsstr)
  : completion_request :=
  {| url := str "https://api.groq.com/openai/v1/chat/completions";
     model := str "llama3-70b-8192";
     messages := [{| role := str "user"; content := prompt b code |}];
     temperature := 2 # 10;
     max_tokens := 4096;
     authorization := str "Bearer " ++ key;
     content_type := str "application/json" |}.

(** [content.trim()]: a string is trimmed, [null] and [undefined] have no
    members, and no other JSON value has a [trim] method (the texts are
    V8's). *)
Definition call_trim (content : value) : result jsstr :=
  match content with
  | VStr s => Ok (trim s)
  | VUndefined | VNull => _ <- Json.get content (str "trim") ;; Ok []
  | _ =>
      Throw (plain_error
               (str "response.data.choices[0].message.content.trim is not a function"))
  end%js.

(** [response.data.choices[0].message.content.trim()] *)
Definition first_completion (data : value) : result jsstr :=
  (choices <- Json.get data (str "choices") ;;
   first <- Json.get0 choices ;;
   message <- Json.get first (str "message") ;;
   content <- Json.get message (str "content") ;;
   call_trim content)%js.

(** The [catch] block:
    [err.response?.data?.error?.message || err.response?.data?.message
     || err.message], sent with [err.response?.status || 500]. *)
Definition failure (err : js_error) : response :=
  let data :=
    match err_response err with
    | Some r => resp_data r
    | None => VUndefined
    end in
  let msg :=
    Json.or (Json.opt_member (Json.opt_member data (str "error")) (str "message"))
      (Json.or (Json.opt_member data (str "message"))
         (VStr (err_message err))) in
  let st :=
    match err_response err with
    | Some r => if resp_status r =? 0 then 500 else resp_status r
    | None => 500
    end in
  res_status st (Error msg).

(** [POST /api/convert]; [groq] is the completion service. *)
Definition convert (h : host) (groq : completion_request -> outcome value)
  (b : convert_body) : served completion_request :=
  match GROQ_API_KEY h with
  | None | Some [] =>
      ([], res_status 500
             (Error (VStr (str "GROQ_API_KEY is not set in environment variables"))))
  | Some key =>
      match code b with
      | None | Some [] =>
          ([], res_status 400 (Error (VStr (str "No code provided"))))
      | Some code =>
          let call := request_for key b code in
          ([call],
           try_catch
             (match groq call with
              | Resolved data =>
                  luaCode <- first_completion data ;;
                  let luaCode := strip_fences luaCode in
                  Ok (res_json (Converted luaCode (filePath b)))
              | Rejected err => Throw err
              end)%js
             failure)
      end
  end.

(** [GET /api/health] *)
Definition health (h : host) : response :=
  res_json (Health (str "ok") (truthy_opt (GROQ_API_KEY h))).

End Proxy.

(** * Properties *)

(** ** Where the Enumerator's entries come from *)

Module WalkFacts.
Import Enumerator.

(** Induction over a tree, with the claim available for every entry of a
    directory. *)
Section node_induction.

Variable P : node -> Prop.
Hypothesis HFile : forall size content, P (File size content).
Hypothesis HDir :
  forall entries, Forall (fun e => P (snd e)) entries -> P (Dir entries).
Hypothesis HLocked : forall message, P (Locked message).
Hypothesis HBroken : forall message, P (Broken message).

Fixpoint node_induction (n : node) : P n :=
  match n with
  | File size content => HFile size content
  | Dir entries =>
      HDir entries
        ((fix all (l : list (jsstr * node)) : Forall (fun e => P (snd e)) l :=
            match l with
            | [] => Forall_nil _
            | e :: l' => Forall_cons e (node_induction (snd e)) (all l')
            end) entries)
  | Locked message => HLocked message
  | Broken message => HBroken message
  end.

End node_induction.

(** [file_at files dirs name size content]: going down the directories
    [dirs] from the listing [files] leads to a file [name]. *)
Inductive file_at (files : list (jsstr * node))
  : list jsstr -> jsstr -> N -> jsstr -> Prop :=
| file_here name size content :
    In (name, File size content) files ->
    file_at files [] name size content
| file_below d sub dirs name size content :
    In (d, Dir sub) files ->
    file_at sub dirs name size content ->
    file_at files (d :: dirs) name size content.

(** What [fullPath] is after going down [dirs] from [dirPath]. *)
Definition descend (dirPath : jsstr) (dirs : list jsstr) : jsstr :=
  fold_left (fun p d => Path.join [p; d]) dirs dirPath.

(** The eligibility rules of the walk. *)
Definition listed (dirs : list jsstr) (name : jsstr) : bool :=
  forallb (fun d => negb (includes skipDirs d)) dirs
  && negb (startsWith name (str ".")) && negb (includes skipFiles name).

(** The entries the walk owes to a listing. *)
Definition owed (cwd baseDir dirPath : jsstr) (files : list (jsstr * node))
  (e : FileEntry) : Prop :=
  exists dirs name size content,
    file_at files dirs name size content /\
    listed dirs name = true /\
    e = entry cwd baseDir (Path.join [descend dirPath dirs; name]) size.

Lemma file_at_nil dirs name size content :
  ~ file_at [] dirs name size content.
Proof. intros H; inversion H; subst; contradiction. Qed.

Lemma file_at_cons x files dirs name size content :
  file_at (x :: files) dirs name size content <->
  file_at [x] dirs name size content \/ file_at files dirs name size content.
Proof.
  split.
  - intros H; inversion H as [n s c Hin | d sub ds n s c Hin Hsub]; subst;
      destruct Hin as [Hx | Hin].
    + left. constructor. left. exact Hx.
    + right. constructor. exact Hin.
    + left. econstructor; [left; exact Hx | exact Hsub].
    + right. econstructor; [exact Hin | exact Hsub].
  - intros [H | H];
      inversion H as [n s c Hin | d sub ds n s c Hin Hsub]; subst.
    + constructor. destruct Hin as [Hx | []]. left. exact Hx.
    + destruct Hin as [Hx | []]. econstructor; [left; exact Hx | exact Hsub].
    + constructor. right. exact Hin.
    + econstructor; [right; exact Hin | exact Hsub].
Qed.

Lemma owed_cons cwd baseDir dirPath x files e :
  owed cwd baseDir dirPath (x :: files) e <->
  owed cwd baseDir dirPath [x] e \/ owed cwd baseDir dirPath files e.
Proof.
  unfold owed. split.
  - intros (dirs & name & size & content & Hat & Hl & He).
    apply file_at_cons in Hat as [Hat | Hat]; [left | right];
      exists dirs, name, size, content; auto.
  - intros [H | H]; destruct H as (dirs & name & size & content & Hat & Hl & He);
      exists dirs, name, size, content; (split; [|auto]);
      apply file_at_cons; auto.
Qed.

(** The recursive call inside [visit] is [getAllFiles] on the directory. *)
Lemma visit_Dir cwd baseDir dirPath file entries acc :
  visit cwd baseDir dirPath file (Dir entries) acc
  = if negb (includes skipDirs file)
    then getAllFiles cwd baseDir (Path.join [dirPath; file]) entries acc
    else Ok acc.
Proof.
  cbn [visit]. destruct (negb (includes skipDirs file)); [|reflexivity].
  revert acc. induction entries as [|[f child] rest IH]; intros acc.
  - reflexivity.
  - cbn [getAllFiles].
    destruct (visit cwd baseDir (Path.join [dirPath; file]) f child acc);
      [apply IH | reflexivity].
Qed.

(** What a successful walk appends to [arrayOfFiles]. *)
Definition appends (cwd baseDir dirPath : jsstr) (files : list (jsstr * node))
  (acc out : list FileEntry) : Prop :=
  exists added,
    out = acc ++ added /\
    forall e, In e added <-> owed cwd baseDir dirPath files e.

Definition visit_appends (n : node) : Prop :=
  forall cwd baseDir dirPath file acc out,
    visit cwd baseDir dirPath file n acc = Ok out ->
    appends cwd baseDir dirPath [(file, n)] acc out.

Lemma owed_single_file cwd baseDir dirPath file size content e :
  owed cwd baseDir dirPath [(file, File size content)] e <->
  listed [] file = true /\
  e = entry cwd baseDir (Path.join [dirPath; file]) size.
Proof.
  unfold owed. split.
  - intros (dirs & name & sz & c & Hat & Hl & He).
    inversion Hat as [n s c' Hin | d sub ds n s c' Hin Hsub]; subst;
      destruct Hin as [Hx | []]; inversion Hx; subst. auto.
  - intros [Hl He]. exists [], file, size, content.
    repeat split; auto. constructor. left. reflexivity.
Qed.

Lemma owed_single_dir cwd baseDir dirPath file entries e :
  owed cwd baseDir dirPath [(file, Dir entries)] e <->
  includes skipDirs file = false /\
  owed cwd baseDir (Path.join [dirPath; file]) entries e.
Proof.
  unfold owed. split.
  - intros (dirs & name & sz & c & Hat & Hl & He).
    inversion Hat as [n s c' Hin | d sub ds n s c' Hin Hsub]; subst;
      destruct Hin as [Hx | []]; inversion Hx; subst.
    unfold listed in Hl. cbn [forallb] in Hl.
    rewrite <- !andb_assoc in Hl. apply andb_prop in Hl as [Hs Hl].
    split; [now apply negb_true_iff in Hs|].
    exists ds, name, sz, c. repeat split; auto.
    unfold listed. now rewrite <- !andb_assoc.
  - intros [Hs (dirs & name & sz & c & Hat & Hl & He)].
    exists (file :: dirs), name, sz, c. repeat split; auto.
    + econstructor; [left; reflexivity | exact Hat].
    + unfold listed in *. cbn [forallb]. rewrite Hs. exact Hl.
Qed.

Lemma owed_single_other cwd baseDir dirPath file n e :
  (forall size content, n <> File size content) ->
  (forall entries, n <> Dir entries) ->
  ~ owed cwd baseDir dirPath [(file, n)] e.
Proof.
  intros HF HD (dirs & name & sz & c & Hat & _).
  inversion Hat as [nm s c' Hin | d sub ds nm s c' Hin Hsub]; subst;
    destruct Hin as [Hx | []]; inversion Hx; subst.
  - eapply HF; reflexivity.
  - eapply HD; reflexivity.
Qed.

Lemma appends_nothing cwd baseDir dirPath files acc :
  (forall e, ~ owed cwd baseDir dirPath files e) ->
  appends cwd baseDir dirPath files acc acc.
Proof.
  intros H. exists []. split; [now rewrite app_nil_r|].
  intros e; split; [intros [] | intros Ho; exact (H e Ho)].
Qed.

Lemma getAllFiles_appends files :
  Forall (fun x => visit_appends (snd x)) files ->
  forall cwd baseDir dirPath acc out,
    getAllFiles cwd baseDir dirPath files acc = Ok out ->
    appends cwd baseDir dirPath files acc out.
Proof.
  induction 1 as [|[f child] rest Hx _ IH]; intros cwd baseDir dirPath acc out.
  - intros [= <-]. apply appends_nothing.
    intros e (dirs & name & sz & c & Hat & _).
    exact (file_at_nil dirs name sz c Hat).
  - cbn [getAllFiles].
    destruct (visit cwd baseDir dirPath f child acc) as [mid|] eqn:Hv;
      [|discriminate].
    intros Hrest.
    destruct (Hx cwd baseDir dirPath f acc mid Hv) as (a1 & -> & H1).
    destruct (IH cwd baseDir dirPath _ out Hrest) as (a2 & -> & H2).
    exists (a1 ++ a2). split; [now rewrite app_assoc|].
    intros e. rewrite in_app_iff, owed_cons, H1, H2. reflexivity.
Qed.

Lemma visit_appends_all (n : node) : visit_appends n.
Proof.
  induction n as [size content | entries IH | message | message]
    using node_induction;
    intros cwd baseDir dirPath file acc out.
  - cbn [visit]. fold (listed [] file).
    destruct (listed [] file) eqn:Hl.
    + unfold listed in Hl. cbn [forallb] in Hl. cbn [andb] in Hl.
      rewrite Hl. intros [= <-].
      exists [entry cwd baseDir (Path.join [dirPath; file]) size].
      split; [reflexivity|]. intros e. rewrite owed_single_file.
      unfold listed. cbn [forallb andb]. rewrite Hl. simpl.
      split; [intros [<- | []]; auto | intros [_ ->]; auto].
    + unfold listed in Hl. cbn [forallb] in Hl. cbn [andb] in Hl.
      rewrite Hl. intros [= <-]. apply appends_nothing.
      intros e He. apply owed_single_file in He as [He _].
      unfold listed in He. cbn [forallb andb] in He. congruence.
  - rewrite visit_Dir. destruct (includes skipDirs file) eqn:Hs; cbn [negb].
    + intros [= <-]. apply appends_nothing.
      intros e He. apply owed_single_dir in He as [He _]. congruence.
    + intros Hw.
      destruct (getAllFiles_appends entries IH _ _ _ _ _ Hw) as (a & -> & Ha).
      exists a. split; [reflexivity|].
      intros e. rewrite owed_single_dir, Ha. tauto.
  - cbn [visit]. destruct (negb (includes skipDirs file)); [discriminate|].
    intros [= <-]. apply appends_nothing.
    intros e. apply owed_single_other; discriminate.
  - discriminate.
Qed.

(** Soundness and completeness of the walk: a successful [getAllFiles]
    appends exactly one entry for every file of the tree that the
    eligibility rules keep. *)
Lemma getAllFiles_owed cwd baseDir dirPath files out :
  getAllFiles cwd baseDir dirPath files [] = Ok out ->
  forall e, In e out <-> owed cwd baseDir dirPath files e.
Proof.
  intros H.
  assert (Hall : Forall (fun x => visit_appends (snd x)) files)
    by (apply Forall_forall; intros x _; apply visit_appends_all).
  destruct (getAllFiles_appends files Hall _ _ _ _ _ H) as (a & -> & Ha).
  exact Ha.
Qed.

End WalkFacts.

(** ** Paths made of plain names *)

Module PathFacts.
Import Path.

(** A name as [readdirSync] returns them: not empty, no separator inside,
    neither [.] nor [..]. *)
Definition valid_name (n : jsstr) : bool :=
  truthy n && negb (existsb (N.eqb sep) n) && negb (eqb n dot)
  && negb (eqb n dotdot).

(** The absolute path with the given segments. *)
Definition absolute (segs : list jsstr) : jsstr :=
  sep :: JsString.join [sep] segs.

Lemma valid_name_parts n :
  valid_name n = true ->
  truthy n = true /\ existsb (N.eqb sep) n = false /\
  eqb n dot = false /\ eqb n dotdot = false.
Proof.
  unfold valid_name. rewrite !andb_true_iff, !negb_true_iff. tauto.
Qed.

Lemma split_nonempty c s : split c s <> [].
Proof.
  destruct s as [|x r]; simpl; [discriminate|].
  destruct (x =? c); [discriminate|].
  destruct (split c r); discriminate.
Qed.

Lemma split_app c a b : split c (a ++ c :: b) = split c a ++ split c b.
Proof.
  induction a as [|x a IH]; simpl.
  - now rewrite N.eqb_refl.
  - destruct (x =? c); [now rewrite IH|].
    rewrite IH. pose proof (split_nonempty c a) as Hne.
    destruct (split c a); [contradiction | reflexivity].
Qed.

Lemma split_plain c n : existsb (N.eqb c) n = false -> split c n = [n].
Proof.
  induction n as [|x n IH]; simpl; [reflexivity|].
  rewrite orb_false_iff. intros [Hx Hn].
  rewrite N.eqb_sym in Hx. rewrite Hx, (IH Hn). reflexivity.
Qed.

Lemma segments_app a b : segments (a ++ sep :: b) = segments a ++ segments b.
Proof. unfold segments. now rewrite split_app, filter_app. Qed.

Lemma segments_name n : valid_name n = true -> segments n = [n].
Proof.
  intros H. apply valid_name_parts in H as (Ht & Hs & _).
  unfold segments. rewrite (split_plain _ _ Hs). simpl. now rewrite Ht.
Qed.

Lemma segments_join segs :
  forallb valid_name segs = true ->
  segments (JsString.join [sep] segs) = segs.
Proof.
  induction segs as [|a [|b r] IH]; intros H.
  - reflexivity.
  - simpl in H. rewrite andb_true_r in H. now apply segments_name.
  - change (JsString.join [sep] (a :: b :: r))
      with (a ++ sep :: JsString.join [sep] (b :: r)).
    cbn [forallb] in H. apply andb_prop in H as [Ha Hr].
    rewrite segments_app, (segments_name _ Ha), (IH Hr). reflexivity.
Qed.

Lemma segments_absolute segs :
  forallb valid_name segs = true -> segments (absolute segs) = segs.
Proof.
  intros H. unfold absolute.
  change (sep :: JsString.join [sep] segs)
    with ([] ++ sep :: JsString.join [sep] segs).
  now rewrite segments_app, segments_join.
Qed.

Lemma normalizeSegments_filter b segs res :
  normalizeSegments b segs res = normalizeSegments b (filter truthy segs) res.
Proof.
  revert res. induction segs as [|seg rest IH]; intros res; [reflexivity|].
  destruct seg as [|c seg]; [exact (IH res)|].
  cbn [filter truthy normalizeSegments].
  repeat match goal with
         | |- context [if ?x then _ else _] => destruct x
         | |- context [match ?x with [] => _ | _ :: _ => _ end] => destruct x
         end; apply IH.
Qed.

Lemma normalizeSegments_valid b segs res :
  forallb valid_name segs = true ->
  normalizeSegments b segs res = rev res ++ segs.
Proof.
  revert res. induction segs as [|seg rest IH]; intros res H.
  - simpl. now rewrite app_nil_r.
  - cbn [forallb] in H. apply andb_prop in H as [Hs Hr].
    apply valid_name_parts in Hs as (Ht & _ & Hd & Hdd).
    cbn [normalizeSegments]. rewrite Hd, Hdd.
    destruct seg; [discriminate|]. cbn [eqb orb].
    rewrite (IH _ Hr). simpl. now rewrite <- app_assoc.
Qed.

Lemma normalizeString_valid s b :
  forallb valid_name (segments s) = true ->
  normalizeString s b = JsString.join [sep] (segments s).
Proof.
  intros H. unfold normalizeString.
  rewrite normalizeSegments_filter. fold (segments s).
  now rewrite normalizeSegments_valid.
Qed.

Lemma join_truthy segs :
  forallb valid_name segs = true -> segs <> [] ->
  truthy (JsString.join [sep] segs) = true.
Proof.
  destruct segs as [|a r]; [contradiction|]. intros H _.
  cbn [forallb] in H. apply andb_prop in H as [Ha _].
  apply valid_name_parts in Ha as (Ht & _).
  destruct a; [discriminate|]. destruct r; reflexivity.
Qed.

Lemma endsWith_name p n :
  valid_name n = true -> endsWith (p ++ n) [sep] = false.
Proof.
  intros H. apply valid_name_parts in H as (Ht & Hs & _).
  unfold endsWith. rewrite rev_app_distr.
  destruct (rev n) as [|c t] eqn:E.
  - apply (f_equal (@rev N)) in E. rewrite rev_involutive in E.
    subst n. discriminate.
  - assert (Hin : In c n) by (apply in_rev; rewrite E; left; reflexivity).
    change (rev [sep]) with [sep]. cbn [app startsWith].
    destruct (sep =? c) eqn:Hc; [|reflexivity].
    assert (existsb (N.eqb sep) n = true)
      by (apply existsb_exists; exists c; auto).
    congruence.
Qed.

Lemma endsWith_join p segs :
  forallb valid_name segs = true -> segs <> [] ->
  endsWith (p ++ JsString.join [sep] segs) [sep] = false.
Proof.
  revert p. induction segs as [|a [|b r] IH]; intros p H Hne.
  - contradiction.
  - simpl in H. rewrite andb_true_r in H. now apply endsWith_name.
  - change (JsString.join [sep] (a :: b :: r))
      with (a ++ sep :: JsString.join [sep] (b :: r)).
    cbn [forallb] in H. apply andb_prop in H as [_ Hr].
    replace (p ++ a ++ sep :: JsString.join [sep] (b :: r))
      with ((p ++ a ++ [sep]) ++ JsString.join [sep] (b :: r))
      by (now rewrite <- !app_assoc).
    apply IH; [exact Hr | discriminate].
Qed.

Lemma join_app_prefix d r :
  exists t, JsString.join [sep] (d ++ r) = JsString.join [sep] d ++ t.
Proof.
  induction d as [|a [|b d] IH].
  - exists (JsString.join [sep] r). reflexivity.
  - destruct r as [|x r]; [exists []; simpl; now rewrite app_nil_r|].
    exists (sep :: JsString.join [sep] (x :: r)). reflexivity.
  - destruct IH as [t Ht].
    exists t.
    change (JsString.join [sep] ((a :: b :: d) ++ r))
      with (a ++ sep :: JsString.join [sep] ((b :: d) ++ r)).
    rewrite Ht.
    change (JsString.join [sep] (a :: b :: d))
      with (a ++ sep :: JsString.join [sep] (b :: d)).
    now rewrite <- app_assoc.
Qed.

(** Every location below a directory starts with the directory's path. *)
Lemma startsWith_below dsegs rsegs :
  startsWith (absolute (dsegs ++ rsegs)) (absolute dsegs) = true.
Proof.
  apply startsWith_prefix. destruct (join_app_prefix dsegs rsegs) as [t Ht].
  exists t. unfold absolute. now rewrite Ht.
Qed.

Lemma forallb_valid_app a b :
  forallb valid_name (a ++ b) = forallb valid_name a && forallb valid_name b.
Proof. apply forallb_app. Qed.

(** Joining a relative path of plain names to a directory appends its
    segments. *)
Lemma join_below dsegs rsegs :
  forallb valid_name dsegs = true ->
  forallb valid_name rsegs = true -> rsegs <> [] ->
  Path.join [absolute dsegs; JsString.join [sep] rsegs]
  = absolute (dsegs ++ rsegs).
Proof.
  intros Hd Hr Hne. unfold Path.join.
  cbn [filter]. change (truthy (absolute dsegs)) with true. cbv iota.
  rewrite (join_truthy _ Hr Hne).
  change (JsString.join [sep] [absolute dsegs; JsString.join [sep] rsegs])
    with (absolute dsegs ++ sep :: JsString.join [sep] rsegs).
  assert (Hseg : segments (absolute dsegs ++ sep :: JsString.join [sep] rsegs)
                 = dsegs ++ rsegs)
    by (now rewrite segments_app, segments_absolute, segments_join).
  assert (Hall : forallb valid_name (dsegs ++ rsegs) = true)
    by (now rewrite forallb_valid_app, Hd, Hr).
  unfold normalize.
  change (absolute dsegs ++ sep :: JsString.join [sep] rsegs)
    with (sep :: (JsString.join [sep] dsegs ++ sep :: JsString.join [sep] rsegs))
    at 1.
  cbv iota.
  change (sep :: (JsString.join [sep] dsegs ++ sep :: JsString.join [sep] rsegs))
    with (absolute dsegs ++ sep :: JsString.join [sep] rsegs).
  replace (isAbsolute (absolute dsegs ++ sep :: JsString.join [sep] rsegs))
    with true by reflexivity.
  rewrite normalizeString_valid by (now rewrite Hseg).
  rewrite Hseg.
  replace (endsWith (absolute dsegs ++ sep :: JsString.join [sep] rsegs) [sep])
    with false.
  2:{ symmetry.
      replace (absolute dsegs ++ sep :: JsString.join [sep] rsegs)
        with ((absolute dsegs ++ [sep]) ++ JsString.join [sep] rsegs)
        by (now rewrite <- app_assoc).
      now apply endsWith_join. }
  pose proof (join_truthy _ Hall) as Ht.
  destruct (JsString.join [sep] (dsegs ++ rsegs)) eqn:E.
  - assert (dsegs ++ rsegs <> []) by (destruct dsegs; [assumption | discriminate]).
    specialize (Ht H). discriminate.
  - unfold absolute. now rewrite E.
Qed.

Lemma join_name dsegs name :
  forallb valid_name dsegs = true -> valid_name name = true ->
  Path.join [absolute dsegs; name] = absolute (dsegs ++ [name]).
Proof.
  intros Hd Hn. apply (join_below dsegs [name]); [assumption | | discriminate].
  simpl. now rewrite Hn.
Qed.

Lemma resolve_absolute cwd segs :
  forallb valid_name segs = true -> resolve cwd (absolute segs) = absolute segs.
Proof.
  intros H. unfold resolve.
  replace (isAbsolute (absolute segs)) with true by reflexivity.
  assert (Hseg : segments (absolute segs ++ [sep]) = segs).
  { rewrite segments_app, segments_absolute by assumption.
    now rewrite app_nil_r. }
  rewrite normalizeString_valid by (now rewrite Hseg).
  now rewrite Hseg.
Qed.

Lemma dropCommon_app d r : dropCommon d (d ++ r) = ([], r).
Proof.
  induction d as [|x d IH]; simpl.
  - destruct r; reflexivity.
  - now rewrite eqb_refl.
Qed.

(** The path of a location below a directory, relative to the directory. *)
Lemma relative_below cwd dsegs rsegs :
  forallb valid_name dsegs = true ->
  forallb valid_name rsegs = true -> rsegs <> [] ->
  Path.relative cwd (absolute dsegs) (absolute (dsegs ++ rsegs))
  = JsString.join [sep] rsegs.
Proof.
  intros Hd Hr Hne.
  assert (Hall : forallb valid_name (dsegs ++ rsegs) = true)
    by (now rewrite forallb_valid_app, Hd, Hr).
  assert (Hdiff : eqb (absolute dsegs) (absolute (dsegs ++ rsegs)) = false).
  { destruct (eqb (absolute dsegs) (absolute (dsegs ++ rsegs))) eqn:E;
      [|reflexivity].
    apply eqb_eq in E. apply (f_equal segments) in E.
    rewrite !segments_absolute in E by assumption.
    apply (f_equal (@List.length jsstr)) in E. rewrite length_app in E.
    destruct rsegs; [contradiction | simpl in E; lia]. }
  unfold relative. rewrite Hdiff.
  rewrite !resolve_absolute by assumption. rewrite Hdiff.
  rewrite !segments_absolute by assumption.
  now rewrite dropCommon_app.
Qed.

End PathFacts.

(** ** Reading a file *)

Module FsFacts.
Import Path PathFacts.

(** A regular file is read through a path that leads to it and does not end
    in a separator. *)
Lemma readFileSync_file (root : node) (path : jsstr) bytes content :
  lookup root (segments path) = Some (File bytes content) ->
  endsWith path [sep] = false ->
  readFileSync root path = Ok content.
Proof. intros Hl He. unfold readFileSync. now rewrite Hl, He. Qed.

(** What is read is the content of a regular file at the path. *)
Lemma readFileSync_ok (root : node) (path content : jsstr) :
  readFileSync root path = Ok content ->
  exists bytes, lookup root (segments path) = Some (File bytes content).
Proof.
  unfold readFileSync.
  destruct (lookup root (segments path)) as [[bytes c | | |]|];
    try discriminate.
  - destruct (endsWith path [sep]); [discriminate|].
    intros [= <-]. eauto.
  - destruct (through_file root (segments path)); discriminate.
Qed.


(** The path of a location below the root of the file system does not end
    in a separator. *)
Lemma endsWith_absolute segs :
  forallb valid_name segs = true -> segs <> [] ->
  endsWith (absolute segs) [sep] = false.
Proof. intros Hv Hne. exact (endsWith_join [sep] segs Hv Hne). Qed.

End FsFacts.

(** ** Conversion Proxy: cleaning the completion text *)

Lemma canon_backtick (d : N) : (96 =? canon d) = (96 =? d).
Proof.
  unfold canon.
  destruct (97 <=? d) eqn:E1; destruct (d <=? 122) eqn:E2; cbn [andb];
    try reflexivity.
  apply N.leb_le in E1, E2.
  destruct (N.eqb_spec 96 (d - 32)), (N.eqb_spec 96 d); try reflexivity; lia.
Qed.

Lemma startsWith_ci_fence (s : jsstr) :
  startsWith_ci s fence = startsWith s fence.
Proof.
  destruct s as [|x [|y [|z s]]]; cbn [fence str startsWith_ci startsWith];
    try reflexivity;
    change (canon (N_of_ascii "`")) with 96;
    change (N_of_ascii "`") with 96;
    now rewrite !canon_backtick.
Qed.

(** Between an opening and a closing fence, the text comes back trimmed,
    unless it begins with a fence itself under a tagged opening fence. *)
Lemma strip_fences_fenced (tag body : jsstr) :
  tag = [] \/ is_lua_tag tag = true /\ startsWith body fence = false ->
  strip_fences (fenced tag body) = trim body.
Proof.
  unfold strip_fences, fenced. intros [-> | [Htag Hbody]].
  - cbn [app]. rewrite FenceFacts.strip_lua_fence_untagged.
    rewrite FenceFacts.strip_open_fence_untagged.
    now rewrite FenceFacts.strip_close_fence_closing.
  - rewrite FenceFacts.strip_lua_fence_tagged by assumption.
    rewrite FenceFacts.strip_open_fence_none
      by (now rewrite FenceFacts.open_fence_before_nl, startsWith_ci_fence).
    now rewrite FenceFacts.strip_close_fence_closing.
Qed.

Lemma strip_fences_unfenced (s : jsstr) :
  startsWith s fence = false -> endsWith s fence = false ->
  strip_fences s = trim s.
Proof.
  intros Hs He. unfold strip_fences.
  rewrite FenceFacts.strip_lua_fence_none by (now rewrite startsWith_ci_fence).
  rewrite FenceFacts.strip_open_fence_none by (now rewrite startsWith_ci_fence).
  now rewrite FenceFacts.strip_close_fence_none.
Qed.

(** The sequence of the two leading patterns removes two fences when the
    first one is tagged: the text between the pair loses its own opening
    fence and keeps its closing one. *)
Lemma strip_fences_takes_inner_fence :
  strip_fences
    (fenced (str "lua") (fence ++ nl :: str "print(1)" ++ nl :: fence))
  = str "print(1)" ++ nl :: fence.
Proof. reflexivity. Qed.

(** C2, as stated, fails: the text between the fence pair does not come
    back as it is.  Its indentation is lost to the final [trim()], and a
    fence at its start is removed by the second leading pattern. *)
Lemma clean_completion_not_verbatim :
  clean_completion (fenced (str "lua") (str "  x = 1")) <> str "  x = 1"
  /\ clean_completion
       (fenced (str "lua") (fence ++ nl :: str "print(1)" ++ nl :: fence))
     <> trim (fence ++ nl :: str "print(1)" ++ nl :: fence).
Proof. split; discriminate. Qed.

(** C2, amended: when the trimmed completion is a fence (bare, or tagged
    [lua] in any letter case), a newline, a text, a newline and a fence, and
    under a tagged fence the text does not begin with a fence, the converted
    code is the text with its surrounding whitespace trimmed; when the
    trimmed completion neither begins nor ends with a fence, the converted
    code is the trimmed completion. *)
Theorem clean_completion_fences (content : jsstr) :
  (forall tag body,
      trim content = fenced tag body ->
      tag = [] \/ is_lua_tag tag = true /\ startsWith body fence = false ->
      clean_completion content = trim body)
  /\ (startsWith (trim content) fence = false ->
      endsWith (trim content) fence = false ->
      clean_completion content = trim content).
Proof.
  unfold clean_completion. split.
  - intros tag body -> H. now apply strip_fences_fenced.
  - intros Hs He. rewrite strip_fences_unfenced by assumption.
    apply trim_idem.
Qed.

Lemma clean_completion_fences_witness :
  clean_completion (str " " ++ fenced (str "LuA") (str " print(hi) ") ++ [nl])
  = str "print(hi)"
  /\ clean_completion (fenced [] (fence ++ str "x")) = fence ++ str "x"
  /\ clean_completion (str "  return 1 ") = str "return 1".
Proof.
  split; [|split].
  - apply (proj1 (clean_completion_fences
                    (str " " ++ fenced (str "LuA") (str " print(hi) ") ++ [nl]))
             (str "LuA") (str " print(hi) ")).
    + reflexivity.
    + right. split; reflexivity.
  - apply (proj1 (clean_completion_fences (fenced [] (fence ++ str "x")))
             [] (fence ++ str "x")).
    + reflexivity.
    + left. reflexivity.
  - apply (proj2 (clean_completion_fences (str "  return 1 "))); reflexivity.
Defined.

(** ** Conversion Proxy: the order of the checks *)

Import Proxy.

Definition unconfigured : response :=
  res_status 500
    (Error (VStr (str "GROQ_API_KEY is not set in environment variables"))).

Definition no_code : response :=
  res_status 400 (Error (VStr (str "No code provided"))).

(** Sample data for the closed statements below. *)
Definition bare_host (key : option jsstr) : host :=
  {| dirname := str "/srv/app"; cwd := str "/srv/app"; root := Dir [];
     GROQ_API_KEY := key |}.

Definition unreachable : completion_request -> outcome value :=
  fun _ => Rejected (plain_error (str "connect ECONNREFUSED")).

Definition completion (text : jsstr) : value :=
  VObj [(str "choices",
         VArr [VObj [(str "message",
                      VObj [(str "role", VStr (str "assistant"));
                            (str "content", VStr text)])]])].

Definition answers (text : jsstr) : completion_request -> outcome value :=
  fun _ => Resolved (completion text).

Definition rust_body : convert_body :=
  {| filePath := Some (str "main.rs"); code := Some (str "fn main() {}");
     originalLang := Some (str "Rust") |}.

Example or_else_keeps_text :
  or_else (Some (str "Rust")) (str "code") = str "Rust"
  /\ or_else (Some []) (str "code") = str "code"
  /\ or_else None (str "code") = str "code".
Proof. repeat split. Qed.

Example convert_spec_scenario :
  snd (convert (bare_host (Some (str "gsk_1")))
         (answers (fenced (str "lua") (str "print(hi)"))) rust_body)
  = res_json (Converted (str "print(hi)") (Some (str "main.rs"))).
Proof. reflexivity. Qed.

(** C5: while the credential is not configured ([undefined] or empty), every
    convert request is answered 500 with the fixed message, and the
    completion service is not called. *)
Theorem convert_unconfigured (h : host)
  (groq : completion_request -> outcome value) (b : convert_body) :
  truthy_opt (GROQ_API_KEY h) = false ->
  convert h groq b = ([], unconfigured).
Proof.
  unfold convert. destruct (GROQ_API_KEY h) as [[|c key]|]; simpl;
    [reflexivity | discriminate | reflexivity].
Qed.

Lemma convert_unconfigured_witness :
  convert (bare_host None) (answers (str "print(1)")) rust_body
  = ([], unconfigured)
  /\ convert (bare_host (Some [])) (answers (str "print(1)")) rust_body
     = ([], unconfigured).
Proof.
  split; apply convert_unconfigured; reflexivity.
Defined.

(** C3, as stated, fails: the credential check comes first, so an empty
    request sent while the credential is not configured is answered 500,
    not 400. *)
Lemma convert_empty_code_unconfigured :
  status (snd (convert (bare_host None) unreachable
                 {| filePath := Some (str "main.rs"); code := None;
                    originalLang := None |})) = 500
  /\ status (snd (convert (bare_host None) unreachable
                    {| filePath := Some (str "main.rs"); code := Some [];
                       originalLang := None |})) <> 400.
Proof. split; [reflexivity | discriminate]. Qed.

(** C3, amended: while the credential is configured, every convert request
    whose [code] is empty or absent is answered 400, and the completion
    service is not called (no prompt is sent). *)
Theorem convert_empty_code_configured (h : host)
  (groq : completion_request -> outcome value) (b : convert_body) :
  truthy_opt (GROQ_API_KEY h) = true ->
  truthy_opt (code b) = false ->
  convert h groq b = ([], no_code).
Proof.
  unfold convert. destruct (GROQ_API_KEY h) as [[|c key]|]; simpl;
    try discriminate.
  intros _. destruct (code b) as [[|d src]|]; simpl;
    [reflexivity | discriminate | reflexivity].
Qed.

Lemma convert_empty_code_configured_witness :
  convert (bare_host (Some (str "gsk_1"))) (answers (str "print(1)"))
    {| filePath := Some (str "main.rs"); code := Some [];
       originalLang := Some (str "Rust") |}
  = ([], no_code)
  /\ convert (bare_host (Some (str "gsk_1"))) (answers (str "print(1)"))
       {| filePath := None; code := None; originalLang := None |}
     = ([], no_code).
Proof.
  split; apply convert_empty_code_configured; reflexivity.
Defined.

(** C10: [filePath] is never looked at.  With a configured credential and a
    non-empty [code] the completion service is called whatever [filePath]
    holds, and when the call yields a completion the response carries the
    request's [filePath] as it came ([None], a member that is not there,
    stays so). *)
Theorem convert_filePath_verbatim (h : host)
  (groq : completion_request -> outcome value) (b : convert_body)
  (key src : jsstr) :
  GROQ_API_KEY h = Some key -> key <> [] ->
  code b = Some src -> src <> [] ->
  fst (convert h groq b) = [request_for key b src]
  /\ forall data luaCode,
      groq (request_for key b src) = Resolved data ->
      first_completion data = Ok luaCode ->
      snd (convert h groq b)
      = res_json (Converted (strip_fences luaCode) (filePath b)).
Proof.
  intros Hk Hkey Hc Hsrc. unfold convert. rewrite Hk, Hc.
  destruct key as [|k key]; [contradiction|].
  destruct src as [|c src]; [contradiction|].
  split; [reflexivity|].
  intros data luaCode Hg Hf. cbn [snd]. rewrite Hg. cbn [try_catch bind].
  rewrite Hf. reflexivity.
Qed.

Lemma convert_filePath_verbatim_witness :
  snd (convert (bare_host (Some (str "gsk_1"))) (answers (str "print(1)"))
         {| filePath := None; code := Some (str "fn main() {}");
            originalLang := None |})
  = res_json (Converted (str "print(1)") None)
  /\ snd (convert (bare_host (Some (str "gsk_1"))) (answers (str "print(1)"))
            {| filePath := Some []; code := Some (str "fn main() {}");
               originalLang := None |})
     = res_json (Converted (str "print(1)") (Some [])).
Proof.
  split.
  - apply (proj2 (convert_filePath_verbatim
                    (bare_host (Some (str "gsk_1"))) (answers (str "print(1)"))
                    {| filePath := None; code := Some (str "fn main() {}");
                       originalLang := None |}
                    (str "gsk_1") (str "fn main() {}")
                    eq_refl ltac:(discriminate) eq_refl ltac:(discriminate))
             (completion (str "print(1)")) (str "print(1)"));
      reflexivity.
  - apply (proj2 (convert_filePath_verbatim
                    (bare_host (Some (str "gsk_1"))) (answers (str "print(1)"))
                    {| filePath := Some []; code := Some (str "fn main() {}");
                       originalLang := None |}
                    (str "gsk_1") (str "fn main() {}")
                    eq_refl ltac:(discriminate) eq_refl ltac:(discriminate))
             (completion (str "print(1)")) (str "print(1)"));
      reflexivity.
Defined.

(** ** Conversion Proxy: failure mapping *)

(** The three candidates of the error message, in the order the [catch]
    block tries them: [data?.error?.message], [data?.message], and the
    error's own text; [data] is [err.response?.data]. *)
Definition upstream_data (err : js_error) : value :=
  match err_response err with
  | Some r => resp_data r
  | None => VUndefined
  end.

Definition nested_message (err : js_error) : value :=
  Json.opt_member (Json.opt_member (upstream_data err) (str "error"))
    (str "message").

Definition generic_message (err : js_error) : value :=
  Json.opt_member (upstream_data err) (str "message").

(** A request that gets past both checks is sent, and whatever the call or
    the reading of its result throws goes through the [catch] block. *)
Lemma convert_catches (h : host) (groq : completion_request -> outcome value)
  (b : convert_body) (key src : jsstr) :
  GROQ_API_KEY h = Some key -> key <> [] ->
  code b = Some src -> src <> [] ->
  forall err,
    (groq (request_for key b src) = Rejected err \/
     exists data, groq (request_for key b src) = Resolved data /\
                  first_completion data = Throw err) ->
    snd (convert h groq b) = failure err.
Proof.
  intros Hk Hkey Hc Hsrc err H. unfold convert. rewrite Hk, Hc.
  destruct key as [|k key]; [contradiction|].
  destruct src as [|c src]; [contradiction|].
  cbn [snd]. destruct H as [-> | (data & -> & Hf)]; [reflexivity|].
  cbn [bind try_catch]. now rewrite Hf.
Qed.

(** C7: when the completion call is rejected, the status sent is the
    upstream response's status when the error carries a response, and 500
    otherwise; the message is the body's nested error message when that is
    truthy, else the body's [message] when that is truthy, else the error's
    own text. *)
Theorem convert_failure_mapping (h : host)
  (groq : completion_request -> outcome value) (b : convert_body)
  (key src : jsstr) (err : js_error) :
  GROQ_API_KEY h = Some key -> key <> [] ->
  code b = Some src -> src <> [] ->
  groq (request_for key b src) = Rejected err ->
  let r := snd (convert h groq b) in
  (forall up, err_response err = Some up -> resp_status up <> 0 ->
              status r = resp_status up)
  /\ (err_response err = None -> status r = 500)
  /\ (Json.truthy (nested_message err) = true ->
      json r = Error (nested_message err))
  /\ (Json.truthy (nested_message err) = false ->
      Json.truthy (generic_message err) = true ->
      json r = Error (generic_message err))
  /\ (Json.truthy (nested_message err) = false ->
      Json.truthy (generic_message err) = false ->
      json r = Error (VStr (err_message err))).
Proof.
  intros Hk Hkey Hc Hsrc Hg r.
  assert (Hr : r = failure err)
    by (apply (convert_catches h groq b key src); auto).
  rewrite Hr. unfold failure. cbn [status json res_status].
  fold (upstream_data err). fold (generic_message err).
  fold (nested_message err). unfold Json.or.
  repeat split.
  - intros up -> Hst. destruct (N.eqb_spec (resp_status up) 0);
      [contradiction | reflexivity].
  - intros ->. reflexivity.
  - intros ->. reflexivity.
  - intros -> ->. reflexivity.
  - intros -> ->. reflexivity.
Qed.

Definition rate_limited : js_error :=
  {| err_message := str "Request failed with status code 429";
     err_response :=
       Some {| resp_status := 429;
               resp_data :=
                 VObj [(str "error",
                        VObj [(str "message", VStr (str "Rate limit reached"));
                              (str "type", VStr (str "tokens"))]);
                       (str "message", VStr (str "Too Many Requests"))] |} |}.

Lemma convert_failure_mapping_witness :
  snd (convert (bare_host (Some (str "gsk_1"))) (fun _ => Rejected rate_limited)
         rust_body)
  = res_status 429 (Error (VStr (str "Rate limit reached"))).
Proof.
  pose proof (convert_failure_mapping
                (bare_host (Some (str "gsk_1")))
                (fun _ => Rejected rate_limited) rust_body
                (str "gsk_1") (str "fn main() {}") rate_limited
                eq_refl ltac:(discriminate) eq_refl ltac:(discriminate) eq_refl)
    as (Hst & _ & Hmsg & _).
  specialize (Hst _ eq_refl ltac:(discriminate)).
  specialize (Hmsg eq_refl).
  destruct (snd (convert (bare_host (Some (str "gsk_1")))
                   (fun _ => Rejected rate_limited) rust_body)) as [st js].
  cbn [status json] in Hst, Hmsg. rewrite Hst, Hmsg. reflexivity.
Defined.

Example failure_generic_message :
  failure {| err_message := str "Request failed with status code 502";
             err_response :=
               Some {| resp_status := 502;
                       resp_data := VObj [(str "message", VStr (str "Bad Gateway"))] |} |}
  = res_status 502 (Error (VStr (str "Bad Gateway"))).
Proof. reflexivity. Qed.

Example failure_transport_text :
  failure (plain_error (str "connect ECONNREFUSED"))
  = res_status 500 (Error (VStr (str "connect ECONNREFUSED"))).
Proof. reflexivity. Qed.

Example failure_malformed_completion :
  snd (convert (bare_host (Some (str "gsk_1")))
         (fun _ => Resolved (VObj [(str "choices", VArr [])])) rust_body)
  = res_status 500
      (Error (VStr (str "Cannot read properties of undefined (reading 'message')"))).
Proof. reflexivity. Qed.

(** ** Health Reporter *)

(** C8: the health response is always 200 with status [ok] and a boolean
    that is true exactly when the credential is set and not empty; two hosts
    whose credentials are both set and not empty get the same response. *)
Theorem health_boolean_only :
  (forall h, exists flag,
      health h = {| status := 200; json := Health (str "ok") flag |}
      /\ (flag = true <-> exists key, GROQ_API_KEY h = Some key /\ key <> []))
  /\ (forall h1 h2 key1 key2,
        GROQ_API_KEY h1 = Some key1 -> key1 <> [] ->
        GROQ_API_KEY h2 = Some key2 -> key2 <> [] ->
        health h1 = health h2).
Proof.
  split.
  - intros h. exists (truthy_opt (GROQ_API_KEY h)). split; [reflexivity|].
    destruct (GROQ_API_KEY h) as [[|c key]|]; simpl; split.
    + discriminate.
    + intros (key & [= <-] & Hne). contradiction.
    + intros _. exists (c :: key). split; [reflexivity | discriminate].
    + reflexivity.
    + discriminate.
    + intros (key & Hk & _). discriminate.
  - intros h1 h2 key1 key2 H1 Hk1 H2 Hk2. unfold health. rewrite H1, H2.
    destruct key1; [contradiction|]. destruct key2; [contradiction|].
    reflexivity.
Qed.

Lemma health_boolean_only_witness :
  health (bare_host (Some (str "gsk_first")))
  = health {| dirname := str "/opt/lua"; cwd := str "/"; root := Dir [];
              GROQ_API_KEY := Some (str "gsk_other_secret") |}.
Proof.
  apply (proj2 health_boolean_only _ _ (str "gsk_first") (str "gsk_other_secret"));
    try reflexivity; discriminate.
Defined.

(** ** Tree Enumerator *)

Import Enumerator WalkFacts.

(** A listing is sent only after a successful read of the service root and
    a successful walk, and holds the entries of the walk below the size
    ceiling, in the order of the walk. *)
Lemma repo_files_listing (h : host) (files : list FileEntry) (total : nat) :
  repo_files h = res_json (Files files total) ->
  exists listing out,
    readdirSync (root h) (dirname h) = Ok listing
    /\ getAllFiles (cwd h) (dirname h) (dirname h) listing [] = Ok out
    /\ files = filter (fun f => below_ceiling (size f)) out
    /\ total = List.length files.
Proof.
  unfold repo_files.
  destruct (readdirSync (root h) (dirname h)) as [listing|] eqn:Hd;
    cbn [bind try_catch]; [|discriminate].
  destruct (getAllFiles (cwd h) (dirname h) (dirname h) listing []) as [out|]
    eqn:Hw; cbn [bind try_catch]; [|discriminate].
  intros [= <- <-]. exists listing, out. auto.
Qed.

Lemma below_ceiling_lt (x : option N) :
  below_ceiling x = true <-> exists n, x = Some n /\ n < 500000.
Proof.
  destruct x as [n|]; simpl.
  - rewrite N.ltb_lt. split; [eauto | intros (m & [= <-] & H); exact H].
  - split; [discriminate | intros (m & H & _); discriminate].
Qed.

Lemma remote_repo_files_listing github q calls files total :
  Remote.repo_files github q = (calls, res_json (Files files total)) ->
  exists tree,
    github (Remote.tree_request_for q) = Resolved tree
    /\ files = map Remote.file_entry
                 (filter (fun item => below_ceiling (Remote.item_size item))
                    (filter (fun item => eqb (Remote.item_type item) (str "file"))
                       tree)).
Proof.
  unfold Remote.repo_files.
  destruct (negb (truthy_opt (Remote.owner q))
            || negb (truthy_opt (Remote.repo q))); [discriminate|].
  destruct (github (Remote.tree_request_for q)) as [tree|err] eqn:Hg;
    cbn [try_catch].
  - intros [= _ <- _]. exists tree. auto.
  - unfold Remote.failure, res_status, res_json. intros [= _ _ Hj].
Qed.

(** C4: every entry of a listing, local or remote, has a size below
    500000; a file the walk's rules keep is in the local listing exactly when
    its size is below 500000 (so one of 499999 bytes is, one of 500000 bytes
    is not), and likewise an item of type [file] in the remote tree. *)
Theorem size_below_ceiling :
  (forall h files total,
      repo_files h = res_json (Files files total) ->
      (forall e, In e files -> exists n, size e = Some n /\ n < 500000)
      /\ (forall listing dirs name s content,
             readdirSync (root h) (dirname h) = Ok listing ->
             file_at listing dirs name s content ->
             listed dirs name = true ->
             In (entry (cwd h) (dirname h)
                   (Path.join [descend (dirname h) dirs; name]) s) files
             <-> s < 500000))
  /\ (forall github q calls files total,
        Remote.repo_files github q = (calls, res_json (Files files total)) ->
        (forall e, In e files -> exists n, size e = Some n /\ n < 500000)
        /\ (forall tree item,
               github (Remote.tree_request_for q) = Resolved tree ->
               In item tree ->
               Remote.item_type item = str "file" ->
               In (Remote.file_entry item) files
               <-> exists n, Remote.item_size item = Some n /\ n < 500000)).
Proof.
  split.
  - intros h files total H.
    destruct (repo_files_listing h files total H)
      as (listing & out & Hd & Hw & -> & _).
    split.
    + intros e He. apply filter_In in He as [_ He].
      now apply below_ceiling_lt.
    + intros listing' dirs name s content Hd' Hat Hl.
      rewrite Hd in Hd'. injection Hd' as <-.
      rewrite filter_In, (getAllFiles_owed _ _ _ _ _ Hw).
      cbn [entry size below_ceiling]. rewrite N.ltb_lt.
      split; [tauto|]. intros Hs. split; [|exact Hs].
      exists dirs, name, s, content. auto.
  - intros github q calls files total H.
    destruct (remote_repo_files_listing github q calls files total H)
      as (tree & Hg & ->).
    split.
    + intros e He. apply in_map_iff in He as (item & <- & Hi).
      apply filter_In in Hi as [_ Hi]. now apply below_ceiling_lt.
    + intros tree' item Hg' Hin Hty.
      rewrite Hg in Hg'. injection Hg' as <-.
      rewrite <- below_ceiling_lt. split.
      * intros He. apply in_map_iff in He as (item' & Heq & Hi).
        apply filter_In in Hi as [_ Hi].
        apply (f_equal size) in Heq. cbn [Remote.file_entry size] in Heq.
        now rewrite <- Heq.
      * intros Hs. apply in_map. apply filter_In. split; [|exact Hs].
        apply filter_In. split; [exact Hin|]. rewrite Hty. apply eqb_refl.
Qed.

Definition ceiling_host : host :=
  {| dirname := str "/srv/app"; cwd := str "/";
     root :=
       Dir [(str "srv",
             Dir [(str "app",
                   Dir [(str "full.bin", File 500000 []);
                        (str "lib", Dir [(str "edge.bin", File 499999 [])])])])];
     GROQ_API_KEY := None |}.

Definition ceiling_tree : list Remote.tree_item :=
  [ {| Remote.item_type := str "file"; Remote.item_path := str "full.bin";
       Remote.item_size := Some 500000; Remote.item_sha := Some (str "a1") |};
    {| Remote.item_type := str "file"; Remote.item_path := str "lib/edge.bin";
       Remote.item_size := Some 499999; Remote.item_sha := Some (str "b2") |};
    {| Remote.item_type := str "tree"; Remote.item_path := str "lib";
       Remote.item_size := None; Remote.item_sha := Some (str "c3") |} ].

Definition ceiling_query : Remote.repo_query :=
  {| Remote.owner := Some (str "PY44N"); Remote.repo := Some (str "LuaObfuscatorV2");
     Remote.branch := None |}.

Lemma size_below_ceiling_witness :
  (repo_files ceiling_host
   = res_json (Files [{| path := str "lib/edge.bin"; size := Some 499999;
                         sha := None |}] 1)
   /\ ~ In {| path := str "full.bin"; size := Some 500000; sha := None |}
          [{| path := str "lib/edge.bin"; size := Some 499999; sha := None |}])
  /\ (snd (Remote.repo_files (fun _ => Resolved ceiling_tree) ceiling_query)
      = res_json (Files [{| path := str "lib/edge.bin"; size := Some 499999;
                            sha := Some (str "b2") |}] 1)
      /\ ~ In {| path := str "full.bin"; size := Some 500000;
                 sha := Some (str "a1") |}
             [{| path := str "lib/edge.bin"; size := Some 499999;
                 sha := Some (str "b2") |}]).
Proof.
  destruct size_below_ceiling as [Hlocal Hremote].
  split; (split; [reflexivity|]).
  - destruct (Hlocal ceiling_host _ 1%nat eq_refl) as [_ H].
    intros Hin.
    apply (H [(str "full.bin", File 500000 []);
              (str "lib", Dir [(str "edge.bin", File 499999 [])])]
             [] (str "full.bin") 500000 [] eq_refl) in Hin.
    + lia.
    + constructor. left. reflexivity.
    + reflexivity.
  - destruct (Hremote (fun _ => Resolved ceiling_tree) ceiling_query
                _ _ 1%nat eq_refl) as [_ H].
    intros Hin.
    apply (H ceiling_tree
             {| Remote.item_type := str "file"; Remote.item_path := str "full.bin";
                Remote.item_size := Some 500000;
                Remote.item_sha := Some (str "a1") |} eq_refl) in Hin.
    + destruct Hin as (n & [= <-] & Hlt). lia.
    + left. reflexivity.
    + reflexivity.
Defined.

Import PathFacts.

Lemma includes_In (arr : list jsstr) (s : jsstr) :
  includes arr s = true <-> In s arr.
Proof.
  unfold includes. rewrite existsb_exists. split.
  - intros (x & Hin & Heq). apply eqb_eq in Heq. now subst.
  - intros Hin. exists s. split; [exact Hin | apply eqb_refl].
Qed.





(** Below a service root with a plain absolute path, going down plain names
    appends them to the path. *)
Lemma descend_valid dsegs dirs :
  forallb valid_name dsegs = true -> forallb valid_name dirs = true ->
  descend (absolute dsegs) dirs = absolute (dsegs ++ dirs).
Proof.
  revert dsegs. induction dirs as [|d dirs IH]; intros dsegs Hd Hv.
  - now rewrite app_nil_r.
  - cbn [forallb] in Hv. apply andb_prop in Hv as [Hn Hv].
    unfold descend. cbn [fold_left]. rewrite join_name by assumption.
    fold (descend (absolute (dsegs ++ [d])) dirs).
    rewrite IH; [now rewrite <- app_assoc | | assumption].
    rewrite forallb_valid_app, Hd. simpl. now rewrite Hn.
Qed.

(** The entry of a file below such a root: its path is the names from the
    root down to the file, joined by [/]. *)
Lemma entry_below cwd dsegs dirs name size :
  forallb valid_name dsegs = true -> forallb valid_name dirs = true ->
  valid_name name = true ->
  entry cwd (absolute dsegs)
    (Path.join [descend (absolute dsegs) dirs; name]) size
  = {| path := replaceAll 92 47 (JsString.join [Path.sep] (dirs ++ [name]));
       size := Some size; sha := None |}.
Proof.
  intros Hd Hv Hn. unfold entry.
  assert (Hall : forallb valid_name (dsegs ++ dirs) = true)
    by (now rewrite forallb_valid_app, Hd, Hv).
  assert (Hrel : forallb valid_name (dirs ++ [name]) = true)
    by (rewrite forallb_valid_app, Hv; simpl; now rewrite Hn).
  rewrite descend_valid, join_name by assumption.
  rewrite <- app_assoc, relative_below;
    [reflexivity | assumption | assumption |].
  destruct dirs; discriminate.
Qed.




(** ** Content Fetcher *)

Import Fetcher.

Definition forbidden : response :=
  res_status 403 (Error (VStr (str "Access denied"))).

(** The gate as the handler applies it: a request whose joined path does not
    start with the text of [__dirname] is answered 403 and nothing is read. *)
Lemma file_content_forbidden (h : host) (filePath : jsstr) :
  filePath <> [] ->
  startsWith (Path.join [dirname h; filePath]) (dirname h) = false ->
  file_content h (Some filePath) = forbidden.
Proof.
  intros Hne Hs. unfold file_content.
  destruct filePath as [|c p]; [contradiction|]. now rewrite Hs.
Qed.

(** A request that passes the gate is answered with whatever the file system
    holds at the joined path. *)
Lemma file_content_read (h : host) (filePath content : jsstr) :
  filePath <> [] ->
  startsWith (Path.join [dirname h; filePath]) (dirname h) = true ->
  readFileSync (root h) (Path.join [dirname h; filePath]) = Ok content ->
  file_content h (Some filePath) = res_json (Content content filePath).
Proof.
  intros Hne Hs Hr. unfold file_content.
  destruct filePath as [|c p]; [contradiction|]. now rewrite Hs, Hr.
Qed.

(** C9: the Content Fetcher applies none of the Enumerator's rules.  A
    request that passes the gate, with a joined path that does not end in a
    separator, is answered with the content of the file at the joined path,
    whatever the file; and every file below the service root passes the
    gate and is returned when asked for by its relative path, whatever its
    name, the names of the directories it lies in, and its size. *)
Theorem file_content_ignores_eligibility (h : host) :
  (forall (filePath : jsstr) size content,
      filePath <> [] ->
      startsWith (Path.join [dirname h; filePath]) (dirname h) = true ->
      endsWith (Path.join [dirname h; filePath]) [Path.sep] = false ->
      lookup (root h) (Path.segments (Path.join [dirname h; filePath]))
      = Some (File size content) ->
      file_content h (Some filePath) = res_json (Content content filePath))
  /\ (forall dsegs rsegs size content,
        dirname h = absolute dsegs ->
        forallb valid_name dsegs = true ->
        forallb valid_name rsegs = true -> rsegs <> [] ->
        lookup (root h) (dsegs ++ rsegs) = Some (File size content) ->
        file_content h (Some (JsString.join [Path.sep] rsegs))
        = res_json (Content content (JsString.join [Path.sep] rsegs))).
Proof.
  split.
  - intros filePath size content Hne Hs He Hl.
    apply file_content_read; [assumption | assumption |].
    exact (FsFacts.readFileSync_file _ _ size content Hl He).
  - intros dsegs rsegs size content HD Hd Hr Hne Hl.
    assert (Hall : forallb valid_name (dsegs ++ rsegs) = true)
      by (now rewrite forallb_valid_app, Hd, Hr).
    assert (Hne' : dsegs ++ rsegs <> [])
      by (intros E; apply app_eq_nil in E as [_ E]; contradiction).
    apply file_content_read.
    + intros E. pose proof (join_truthy rsegs Hr Hne) as Ht.
      rewrite E in Ht. discriminate.
    + rewrite HD, join_below by assumption. apply startsWith_below.
    + rewrite HD, join_below by assumption.
      apply (FsFacts.readFileSync_file _ _ size content).
      * now rewrite segments_absolute.
      * now apply FsFacts.endsWith_absolute.
Qed.

Definition hidden_host : host :=
  {| dirname := str "/srv/app"; cwd := str "/";
     root :=
       Dir [(str "srv",
             Dir [(str "app",
                   Dir [(str "node_modules",
                         Dir [(str ".env", File 600000 (str "TOKEN=1"))])])])];
     GROQ_API_KEY := None |}.

Lemma file_content_ignores_eligibility_witness :
  file_content hidden_host (Some (str "node_modules/.env"))
  = res_json (Content (str "TOKEN=1") (str "node_modules/.env"))
  /\ file_content hidden_host (Some (str "./lib/../node_modules//.env"))
     = res_json (Content (str "TOKEN=1") (str "./lib/../node_modules//.env"))
  /\ repo_files hidden_host = res_json (Files [] 0).
Proof.
  split; [|split; [|reflexivity]].
  - apply (proj2 (file_content_ignores_eligibility hidden_host)
             [str "srv"; str "app"] [str "node_modules"; str ".env"]
             600000 (str "TOKEN=1"));
      try reflexivity; discriminate.
  - apply (proj1 (file_content_ignores_eligibility hidden_host)
             (str "./lib/../node_modules//.env") 600000 (str "TOKEN=1"));
      try reflexivity; discriminate.
Defined.

(** The service root of the next statements has a sibling directory whose
    name begins with the root's name. *)
Definition sibling_host : host :=
  {| dirname := str "/srv/app"; cwd := str "/srv/app";
     root :=
       Dir [(str "etc", Dir [(str "passwd", File 5 (str "root:"))]);
            (str "srv",
             Dir [(str "app", Dir [(str "server.js", File 9 (str "const x;"))]);
                  (str "app-secret",
                   Dir [(str "key.txt", File 6 (str "secret"))])])];
     GROQ_API_KEY := None |}.

Example file_content_trailing_separator :
  file_content sibling_host (Some (str "server.js/"))
  = res_status 500
      (Error (VStr (str "ENOTDIR: not a directory, open '/srv/app/server.js/'")))
  /\ file_content sibling_host (Some (str "server.js/x"))
     = res_status 500
         (Error (VStr (str "ENOTDIR: not a directory, open '/srv/app/server.js/x'")))
  /\ file_content sibling_host (Some (str "server.js"))
     = res_json (Content (str "const x;") (str "server.js")).
Proof. repeat split. Qed.

Example file_content_parent_escape :
  file_content sibling_host (Some (str "../../etc/passwd")) = forbidden.
Proof. reflexivity. Qed.

(** C1 fails on the code: the gate compares texts, not locations.  The
    request [../app-secret/key.txt] resolves to [/srv/app-secret/key.txt],
    which does not lie within [/srv/app] but starts with its text; the
    handler answers 200 with the content of the file. *)
Theorem file_content_sibling_escape :
  Path.join [dirname sibling_host; str "../app-secret/key.txt"]
  = str "/srv/app-secret/key.txt"
  /\ within (dirname sibling_host) (str "/srv/app-secret/key.txt") = false
  /\ file_content sibling_host (Some (str "../app-secret/key.txt"))
     = res_json (Content (str "secret") (str "../app-secret/key.txt")).
Proof. repeat split. Qed.

(** * Further properties *)

(** ** The walk, entry by entry

    Two readings of a listing that do not thread [arrayOfFiles]: the entries
    the walk owes, in the order it meets them, and the first error it runs
    into. *)

Module Listing.

Section Reading.

Variables cwd baseDir : jsstr.

(** The entries owed to the name [file] read in [dirPath]: the file itself
    when the rules keep it, or what its directory owes when the directory is
    entered. *)
Fixpoint expected_of (dirPath file : jsstr) (n : node) {struct n}
  : list FileEntry :=
  let fullPath := Path.join [dirPath; file] in
  match n with
  | File size _ =>
      if negb (startsWith file (str ".")) && negb (includes skipFiles file)
      then [entry cwd baseDir fullPath size]
      else []
  | Dir entries =>
      if negb (includes skipDirs file) then
        (fix each (files : list (jsstr * node)) : list FileEntry :=
           match files with
           | [] => []
           | (f, child) :: rest => expected_of fullPath f child ++ each rest
           end) entries
      else []
  | Locked _ | Broken _ => []
  end.

Fixpoint expected (dirPath : jsstr) (files : list (jsstr * node))
  : list FileEntry :=
  match files with
  | [] => []
  | (f, child) :: rest => expected_of dirPath f child ++ expected dirPath rest
  end.

End Reading.

(** The first error of a walk, in the order of the walk: an entry
    [statSync] throws on, whatever its name, or a directory that is entered
    and that [readdirSync] throws on. *)
Fixpoint fault_of (file : jsstr) (n : node) {struct n} : option jsstr :=
  match n with
  | File _ _ => None
  | Broken message => Some message
  | Locked message =>
      if negb (includes skipDirs file) then Some message else None
  | Dir entries =>
      if negb (includes skipDirs file) then
        (fix each (files : list (jsstr * node)) : option jsstr :=
           match files with
           | [] => None
           | (f, child) :: rest =>
               match fault_of f child with
               | Some message => Some message
               | None => each rest
               end
           end) entries
      else None
  end.

Fixpoint fault (files : list (jsstr * node)) : option jsstr :=
  match files with
  | [] => None
  | (f, child) :: rest =>
      match fault_of f child with
      | Some message => Some message
      | None => fault rest
      end
  end.

Lemma expected_of_Dir cwd baseDir dirPath file entries :
  expected_of cwd baseDir dirPath file (Dir entries)
  = if negb (includes skipDirs file)
    then expected cwd baseDir (Path.join [dirPath; file]) entries
    else [].
Proof.
  cbn [expected_of]. destruct (negb (includes skipDirs file)); [|reflexivity].
  induction entries as [|[f child] rest IH]; [reflexivity|].
  cbn [expected]. now rewrite <- IH.
Qed.

Lemma fault_of_Dir file entries :
  fault_of file (Dir entries)
  = if negb (includes skipDirs file) then fault entries else None.
Proof.
  cbn [fault_of]. destruct (negb (includes skipDirs file)); [|reflexivity].
  induction entries as [|[f child] rest IH]; [reflexivity|].
  cbn [fault]. now rewrite <- IH.
Qed.

(** What the walk returns, from the two readings. *)
Definition outcome_of (acc owed : list FileEntry) (failed : option jsstr)
  : result (list FileEntry) :=
  match failed with
  | Some message => Throw (plain_error message)
  | None => Ok (acc ++ owed)
  end.

Definition visit_reads (n : node) : Prop :=
  forall cwd baseDir dirPath file acc,
    visit cwd baseDir dirPath file n acc
    = outcome_of acc (expected_of cwd baseDir dirPath file n) (fault_of file n).

Lemma getAllFiles_reads files :
  Forall (fun x => visit_reads (snd x)) files ->
  forall cwd baseDir dirPath acc,
    getAllFiles cwd baseDir dirPath files acc
    = outcome_of acc (expected cwd baseDir dirPath files) (fault files).
Proof.
  induction 1 as [|[f child] rest Hx _ IH]; intros cwd baseDir dirPath acc.
  - simpl. now rewrite app_nil_r.
  - cbn [getAllFiles expected fault]. cbn [snd] in Hx. rewrite Hx.
    destruct (fault_of f child) as [message|]; cbn [outcome_of];
      [reflexivity|].
    rewrite IH. destruct (fault rest); cbn [outcome_of]; [reflexivity|].
    now rewrite app_assoc.
Qed.

Lemma visit_reads_all (n : node) : visit_reads n.
Proof.
  induction n as [size content | entries IH | message | message]
    using node_induction; intros cwd baseDir dirPath file acc.
  - cbn [visit expected_of fault_of outcome_of].
    destruct (negb (startsWith file (str ".")) && negb (includes skipFiles file));
      [reflexivity | now rewrite app_nil_r].
  - rewrite visit_Dir, expected_of_Dir, fault_of_Dir.
    destruct (negb (includes skipDirs file)).
    + apply getAllFiles_reads, IH.
    + cbn [outcome_of]. now rewrite app_nil_r.
  - cbn [visit expected_of fault_of].
    destruct (negb (includes skipDirs file)); cbn [outcome_of];
      [reflexivity | now rewrite app_nil_r].
  - reflexivity.
Qed.

Lemma getAllFiles_outcome cwd baseDir dirPath files acc :
  getAllFiles cwd baseDir dirPath files acc
  = outcome_of acc (expected cwd baseDir dirPath files) (fault files).
Proof.
  apply getAllFiles_reads, Forall_forall. intros x _. apply visit_reads_all.
Qed.

(** X1: the walk is all or nothing.  It throws the first error of the
    listing, and otherwise appends, to what it was given, one entry for
    every file the rules keep, depth first and in the order of each
    directory's listing. *)
Theorem getAllFiles_exact cwd baseDir dirPath files acc :
  getAllFiles cwd baseDir dirPath files acc
  = match fault files with
    | Some message => Throw (plain_error message)
    | None => Ok (acc ++ expected cwd baseDir dirPath files)
    end.
Proof. apply getAllFiles_outcome. Qed.

(** What [GET /api/repo-files] answers, from the two readings. *)
Lemma repo_files_outcome (h : host) :
  repo_files h
  = match readdirSync (root h) (dirname h) with
    | Throw err => res_status 500 (Error (VStr (err_message err)))
    | Ok listing =>
        match fault listing with
        | Some message => res_status 500 (Error (VStr message))
        | None =>
            let files :=
              filter (fun f => below_ceiling (size f))
                (expected (cwd h) (dirname h) (dirname h) listing) in
            res_json (Files files (List.length files))
        end
    end.
Proof.
  unfold repo_files.
  destruct (readdirSync (root h) (dirname h)) as [listing|err];
    cbn [bind try_catch]; [|reflexivity].
  rewrite getAllFiles_outcome.
  destruct (fault listing); reflexivity.
Qed.

(** X2: the local listing is all or nothing too.  When the service root
    cannot be read, or the walk runs into an error, the answer is 500 with
    that error's text and no entry; otherwise it is 200 with the entries of
    the walk that are below the size ceiling, in the order of the walk, and
    [total] is their number. *)
Theorem repo_files_exact (h : host) :
  repo_files h
  = match readdirSync (root h) (dirname h) with
    | Throw err => res_status 500 (Error (VStr (err_message err)))
    | Ok listing =>
        match fault listing with
        | Some message => res_status 500 (Error (VStr message))
        | None =>
            let files :=
              filter (fun f => below_ceiling (size f))
                (expected (cwd h) (dirname h) (dirname h) listing) in
            res_json (Files files (List.length files))
        end
    end.
Proof. apply repo_files_outcome. Qed.

(** A listing is faulty when it holds an entry [statSync] throws on, or a
    directory outside the excluded set that cannot be read or whose own
    listing is faulty. *)
Inductive faulty (files : list (jsstr * node)) : Prop :=
| faulty_broken name message :
    In (name, Broken message) files -> faulty files
| faulty_locked name message :
    In (name, Locked message) files ->
    includes skipDirs name = false -> faulty files
| faulty_below name sub :
    In (name, Dir sub) files ->
    includes skipDirs name = false -> faulty sub -> faulty files.

Lemma faulty_cons x files :
  faulty (x :: files) <-> faulty [x] \/ faulty files.
Proof.
  split.
  - intros [n m [Hx | Hin] | n m [Hx | Hin] Hs | n sub [Hx | Hin] Hs Hsub].
    + left. eapply faulty_broken. left. exact Hx.
    + right. eapply faulty_broken. exact Hin.
    + left. eapply faulty_locked; [left; exact Hx | exact Hs].
    + right. eapply faulty_locked; [exact Hin | exact Hs].
    + left. eapply faulty_below; [left; exact Hx | exact Hs | exact Hsub].
    + right. eapply faulty_below; [exact Hin | exact Hs | exact Hsub].
  - intros [[n m Hin | n m Hin Hs | n sub Hin Hs Hsub]
           | [n m Hin | n m Hin Hs | n sub Hin Hs Hsub]].
    + destruct Hin as [Hx | []]. eapply faulty_broken. left. exact Hx.
    + destruct Hin as [Hx | []].
      eapply faulty_locked; [left; exact Hx | exact Hs].
    + destruct Hin as [Hx | []].
      eapply faulty_below; [left; exact Hx | exact Hs | exact Hsub].
    + eapply faulty_broken. right. exact Hin.
    + eapply faulty_locked; [right; exact Hin | exact Hs].
    + eapply faulty_below; [right; exact Hin | exact Hs | exact Hsub].
Qed.

Lemma faulty_nil : ~ faulty [].
Proof. intros [n m [] | n m [] _ | n sub [] _ _]. Qed.

Definition fault_of_faulty (n : node) : Prop :=
  forall file, fault_of file n <> None <-> faulty [(file, n)].

Lemma fault_faulty_list files :
  Forall (fun x => fault_of_faulty (snd x)) files ->
  fault files <> None <-> faulty files.
Proof.
  induction 1 as [|[f child] rest Hx _ IH].
  - split; [intros H; now contradiction H | intros H; destruct (faulty_nil H)].
  - cbn [fault]. cbn [snd] in Hx. rewrite faulty_cons, <- (Hx f), <- IH.
    destruct (fault_of f child); intuition congruence.
Qed.

Lemma fault_of_faulty_all (n : node) : fault_of_faulty n.
Proof.
  induction n as [size content | entries IH | message | message]
    using node_induction; intros file.
  - split; [intros H; now contradiction H|].
    intros [n m [Hx | []] | n m [Hx | []] _ | n sub [Hx | []] _ _];
      discriminate.
  - rewrite fault_of_Dir. destruct (includes skipDirs file) eqn:Hs; cbn [negb].
    + split; [intros H; now contradiction H|].
      intros [n m [Hx | []] | n m [Hx | []] Hs' | n sub [Hx | []] Hs' _];
        inversion Hx; subst; congruence.
    + rewrite (fault_faulty_list entries IH). split.
      * intros Hf. eapply faulty_below; [left; reflexivity | exact Hs | exact Hf].
      * intros [n m [Hx | []] | n m [Hx | []] Hs' | n sub [Hx | []] Hs' Hsub];
          inversion Hx; subst. exact Hsub.
  - cbn [fault_of]. destruct (includes skipDirs file) eqn:Hs; cbn [negb].
    + split; [intros H; now contradiction H|].
      intros [n m [Hx | []] | n m [Hx | []] Hs' | n sub [Hx | []] Hs' _];
        inversion Hx; subst; congruence.
    + split; [|discriminate].
      intros _. eapply faulty_locked; [left; reflexivity | exact Hs].
  - cbn [fault_of]. split; [|discriminate].
    intros _. eapply faulty_broken. left. reflexivity.
Qed.

Lemma fault_faulty files : fault files <> None <-> faulty files.
Proof.
  apply fault_faulty_list, Forall_forall. intros x _. apply fault_of_faulty_all.
Qed.

(** X3: [statSync] is called on every name before the name is looked at, and
    nothing is caught inside the walk.  So, once the service root is read,
    the answer is 500 exactly when the listing is faulty: one broken entry,
    even one named like a hidden file or an excluded directory, or one
    unreadable directory that is entered, anywhere outside the excluded
    directories, fails the whole listing. *)
Theorem repo_files_fails_iff_faulty (h : host) listing :
  readdirSync (root h) (dirname h) = Ok listing ->
  (exists text, repo_files h = res_status 500 (Error (VStr text)))
  <-> faulty listing.
Proof.
  intros Hd. rewrite repo_files_outcome, Hd, <- fault_faulty.
  destruct (fault listing) as [text|]; split.
  - discriminate.
  - intros _. exists text. reflexivity.
  - intros [text H]. discriminate.
  - intros H. now contradiction H.
Qed.

Definition faulty_host : host :=
  {| dirname := str "/srv/app"; cwd := str "/";
     root :=
       Dir [(str "srv",
             Dir [(str "app",
                   Dir [(str "a.txt", File 10 (str "0123456789"));
                        (str "lib",
                         Dir [(str ".env", Broken (str "ENOENT: stat"))])])])];
     GROQ_API_KEY := None |}.

Lemma repo_files_fails_iff_faulty_witness :
  exists text, repo_files faulty_host = res_status 500 (Error (VStr text)).
Proof.
  apply (proj2 (repo_files_fails_iff_faulty faulty_host
                  [(str "a.txt", File 10 (str "0123456789"));
                   (str "lib", Dir [(str ".env", Broken (str "ENOENT: stat"))])]
                  eq_refl)).
  apply (faulty_below _ (str "lib") [(str ".env", Broken (str "ENOENT: stat"))]).
  - right. left. reflexivity.
  - reflexivity.
  - apply (faulty_broken _ (str ".env") (str "ENOENT: stat")). left. reflexivity.
Defined.

End Listing.

(** ** Listed paths, and fetching what was listed *)

Module RoundTrip.
Import Listing.

Lemma replaceAll_absent (c d : N) (s : jsstr) :
  c <> d -> existsb (N.eqb c) (replaceAll c d s) = false.
Proof.
  intros Hcd. induction s as [|x s IH]; [reflexivity|].
  cbn [replaceAll map existsb]. fold (replaceAll c d s). rewrite IH.
  destruct (N.eqb_spec x c) as [-> | Hx].
  - destruct (N.eqb_spec c d); [contradiction | reflexivity].
  - destruct (N.eqb_spec c x); [congruence | reflexivity].
Qed.

Lemma replaceAll_none (c d : N) (s : jsstr) :
  existsb (N.eqb c) s = false -> replaceAll c d s = s.
Proof.
  induction s as [|x s IH]; [reflexivity|].
  cbn [existsb]. rewrite orb_false_iff. intros [Hx Hs].
  cbn [replaceAll map]. fold (replaceAll c d s). rewrite (IH Hs).
  rewrite N.eqb_sym in Hx. now rewrite Hx.
Qed.

(** X4: whatever the tree, no path of a local listing holds a backslash:
    the separator of every listed path is the slash. *)
Theorem listed_path_has_no_backslash (h : host) files total e :
  repo_files h = res_json (Files files total) ->
  In e files ->
  existsb (N.eqb 92) (path e) = false.
Proof.
  intros H He.
  destruct (repo_files_listing h files total H)
    as (listing & out & Hd & Hw & Hf & _).
  rewrite Hf in He. apply filter_In in He as [He _].
  destruct (proj1 (getAllFiles_owed _ _ _ _ _ Hw e) He)
    as (dirs & name & s & content & _ & _ & ->).
  cbn [entry path]. apply replaceAll_absent. discriminate.
Qed.

Definition backslash_host : host :=
  {| dirname := str "/srv/app"; cwd := str "/";
     root :=
       Dir [(str "srv",
             Dir [(str "app", Dir [([97; 92; 98], File 3 (str "abc"))])])];
     GROQ_API_KEY := None |}.

Lemma listed_path_has_no_backslash_witness :
  existsb (N.eqb 92) (str "a/b") = false.
Proof.
  apply (listed_path_has_no_backslash backslash_host
           [{| path := str "a/b"; size := Some 3; sha := None |}] 1%nat
           {| path := str "a/b"; size := Some 3; sha := None |}).
  - reflexivity.
  - left. reflexivity.
Defined.

(** A name of a well-formed tree: plain (see [valid_name]) and without a
    backslash. *)
Definition simple_name (n : jsstr) : bool :=
  valid_name n && negb (existsb (N.eqb 92) n).

Fixpoint distinct (names : list jsstr) : bool :=
  match names with
  | [] => true
  | n :: rest => negb (includes rest n) && distinct rest
  end.

(** A well-formed tree: in every directory the names are simple and
    distinct. *)
Fixpoint well_formed (n : node) : bool :=
  match n with
  | Dir entries =>
      distinct (map fst entries)
      && forallb (fun x => simple_name (fst x) && well_formed (snd x)) entries
  | _ => true
  end.

Lemma find_distinct name n entries :
  distinct (map fst entries) = true ->
  In (name, n) entries -> find name entries = Some n.
Proof.
  induction entries as [|[f child] rest IH]; [intros _ []|].
  cbn [map fst distinct find]. intros Hd [Hx | Hin].
  - inversion Hx; subst. now rewrite eqb_refl.
  - apply andb_prop in Hd as [Hf Hd].
    destruct (eqb f name) eqn:E; [|exact (IH Hd Hin)].
    apply eqb_eq in E. subst f. apply negb_true_iff in Hf.
    assert (includes (map fst rest) name = true).
    { apply includes_In. apply in_map_iff. exists (name, n). auto. }
    congruence.
Qed.

Lemma lookup_app n a b :
  lookup n (a ++ b)
  = match lookup n a with
    | Some m => lookup m b
    | None => None
    end.
Proof.
  revert n. induction a as [|s a IH]; intros n; [reflexivity|].
  cbn [app lookup]. destruct n; try reflexivity.
  destruct (find s entries); [apply IH | reflexivity].
Qed.

(** In a well-formed tree the names that lead to a file are simple, and
    looking them up finds the file. *)
Lemma file_at_lookup listing dirs name size content :
  well_formed (Dir listing) = true ->
  file_at listing dirs name size content ->
  lookup (Dir listing) (dirs ++ [name]) = Some (File size content)
  /\ forallb simple_name (dirs ++ [name]) = true.
Proof.
  intros Hw Hat. induction Hat as [files name size content Hin
                                  | files d sub dirs name size content Hin Hat IH].
  - cbn [well_formed] in Hw. apply andb_prop in Hw as [Hd Hall].
    cbn [app lookup]. rewrite (find_distinct _ _ _ Hd Hin).
    split; [reflexivity|].
    rewrite forallb_forall in Hall. specialize (Hall _ Hin).
    cbn [fst snd] in Hall. apply andb_prop in Hall as [Hn _].
    cbn [forallb]. now rewrite Hn.
  - pose proof Hw as Hw'.
    cbn [well_formed] in Hw. apply andb_prop in Hw as [Hd Hall].
    rewrite forallb_forall in Hall. specialize (Hall _ Hin).
    cbn [fst snd] in Hall. apply andb_prop in Hall as [Hn Hsub].
    destruct (IH Hsub) as [Hl Hs].
    cbn [app lookup]. rewrite (find_distinct _ _ _ Hd Hin).
    split; [exact Hl|]. cbn [forallb]. now rewrite Hn, Hs.
Qed.

Lemma simple_names_valid names :
  forallb simple_name names = true -> forallb valid_name names = true.
Proof.
  rewrite !forallb_forall. intros H x Hx. specialize (H x Hx).
  unfold simple_name in H. now apply andb_prop in H as [H _].
Qed.

Lemma join_no_backslash names :
  forallb simple_name names = true ->
  existsb (N.eqb 92) (JsString.join [Path.sep] names) = false.
Proof.
  induction names as [|a [|b r] IH]; intros H.
  - reflexivity.
  - cbn [forallb] in H. rewrite andb_true_r in H. unfold simple_name in H.
    apply andb_prop in H as [_ H]. now apply negb_true_iff in H.
  - change (JsString.join [Path.sep] (a :: b :: r))
      with (a ++ Path.sep :: JsString.join [Path.sep] (b :: r)).
    cbn [forallb] in H. apply andb_prop in H as [Ha Hr].
    unfold simple_name in Ha. apply andb_prop in Ha as [_ Ha].
    apply negb_true_iff in Ha.
    rewrite existsb_app, Ha. cbn [existsb orb].
    rewrite (IH Hr). reflexivity.
Qed.

(** The listing that [readdirSync] returns for the service root is the
    directory found at its segments. *)
Lemma readdirSync_lookup (h : host) dsegs listing :
  dirname h = absolute dsegs ->
  forallb valid_name dsegs = true ->
  readdirSync (root h) (dirname h) = Ok listing ->
  lookup (root h) dsegs = Some (Dir listing).
Proof.
  intros HD Hv. unfold readdirSync. rewrite HD, segments_absolute by assumption.
  destruct (lookup (root h) dsegs) as [[| entries | |]|]; try discriminate.
  now intros [= ->].
Qed.

(** X5: listing, then fetching.  On a service root with a plain absolute
    path and a well-formed tree below it, every entry of the listing is a
    file of the tree; its listed path is the names from the root down to
    the file joined by slashes, its listed size is the file's, and asking
    the Content Fetcher for the listed path returns the content of that
    file. *)
Theorem listed_entry_is_fetched (h : host) dsegs listing files total e :
  dirname h = absolute dsegs ->
  forallb valid_name dsegs = true ->
  readdirSync (root h) (dirname h) = Ok listing ->
  well_formed (Dir listing) = true ->
  repo_files h = res_json (Files files total) ->
  In e files ->
  exists dirs name bytes content,
    file_at listing dirs name bytes content
    /\ path e = JsString.join [Path.sep] (dirs ++ [name])
    /\ size e = Some bytes
    /\ file_content h (Some (path e)) = res_json (Content content (path e)).
Proof.
  intros HD Hv Hd Hw H He.
  destruct (repo_files_listing h files total H)
    as (listing' & out & Hd' & Hwalk & Hf & _).
  rewrite Hd in Hd'. injection Hd' as <-.
  rewrite Hf in He. apply filter_In in He as [He _].
  destruct (proj1 (getAllFiles_owed _ _ _ _ _ Hwalk e) He)
    as (dirs & name & s & content & Hat & _ & Heq).
  destruct (file_at_lookup listing dirs name s content Hw Hat) as [Hl Hs].
  pose proof (simple_names_valid _ Hs) as Hvalid.
  assert (Hdirs : forallb valid_name dirs = true /\ valid_name name = true).
  { rewrite forallb_valid_app in Hvalid. apply andb_prop in Hvalid as [H1 H2].
    cbn [forallb] in H2. rewrite andb_true_r in H2. auto. }
  destruct Hdirs as [Hdirs Hname].
  assert (Hpath : path e = JsString.join [Path.sep] (dirs ++ [name])).
  { rewrite Heq, HD, entry_below by assumption. cbn [path].
    apply replaceAll_none, join_no_backslash, Hs. }
  exists dirs, name, s, content. repeat split.
  - exact Hat.
  - exact Hpath.
  - now rewrite Heq.
  - rewrite Hpath.
    assert (Hne : dirs ++ [name] <> []) by (destruct dirs; discriminate).
    apply file_content_read.
    + intros E. pose proof (join_truthy _ Hvalid Hne) as Ht.
      rewrite E in Ht. discriminate.
    + rewrite HD, join_below by assumption. apply startsWith_below.
    + rewrite HD, join_below by assumption.
      assert (Hall : forallb valid_name (dsegs ++ dirs ++ [name]) = true)
        by (now rewrite forallb_valid_app, Hv, Hvalid).
      apply (FsFacts.readFileSync_file _ _ s content).
      * rewrite segments_absolute by assumption.
        rewrite lookup_app, (readdirSync_lookup h dsegs listing HD Hv Hd).
        exact Hl.
      * apply FsFacts.endsWith_absolute; [assumption|].
        intros E. apply app_eq_nil in E as [_ E]. contradiction.
Qed.

Definition nested_host : host :=
  {| dirname := str "/srv/app"; cwd := str "/";
     root :=
       Dir [(str "srv",
             Dir [(str "app",
                   Dir [(str "lib",
                         Dir [(str "util.rs", File 12 (str "fn util() {}"))]);
                        (str "main.rs", File 12 (str "fn main() {}"))])])];
     GROQ_API_KEY := None |}.

Lemma listed_entry_is_fetched_witness :
  exists dirs name bytes content,
    file_at [(str "lib", Dir [(str "util.rs", File 12 (str "fn util() {}"))]);
             (str "main.rs", File 12 (str "fn main() {}"))]
      dirs name bytes content
    /\ str "lib/util.rs" = JsString.join [Path.sep] (dirs ++ [name])
    /\ Some 12 = Some bytes
    /\ file_content nested_host (Some (str "lib/util.rs"))
       = res_json (Content content (str "lib/util.rs")).
Proof.
  apply (listed_entry_is_fetched nested_host [str "srv"; str "app"]
           [(str "lib", Dir [(str "util.rs", File 12 (str "fn util() {}"))]);
            (str "main.rs", File 12 (str "fn main() {}"))]
           [{| path := str "lib/util.rs"; size := Some 12; sha := None |};
            {| path := str "main.rs"; size := Some 12; sha := None |}]
           2%nat
           {| path := str "lib/util.rs"; size := Some 12; sha := None |});
    try reflexivity.
  left. reflexivity.
Defined.

End RoundTrip.

(** ** The Content Fetcher's answers *)

Module FetcherFacts.

(** X6: content is only ever returned for a request with a non-empty path
    whose joined path starts with the text of [__dirname] and leads to a
    regular file, and it is that file's content. *)
Theorem file_content_ok_only (h : host) (q : option jsstr) (c p : jsstr) :
  file_content h q = res_json (Content c p) ->
  q = Some p /\ p <> []
  /\ startsWith (Path.join [dirname h; p]) (dirname h) = true
  /\ exists bytes,
      lookup (root h) (Path.segments (Path.join [dirname h; p]))
      = Some (File bytes c).
Proof.
  unfold file_content.
  destruct q as [filePath|]; [|discriminate].
  destruct filePath as [|x rest] eqn:E; [discriminate|]. rewrite <- E.
  destruct (startsWith (Path.join [dirname h; filePath]) (dirname h)) eqn:Hs;
    cbn [negb try_catch]; [|discriminate].
  destruct (readFileSync (root h) (Path.join [dirname h; filePath]))
    as [content|err] eqn:Hr; cbn [bind try_catch]; [|discriminate].
  intros [= <- <-]. repeat split;
    [|exact Hs | exact (FsFacts.readFileSync_ok _ _ _ Hr)].
  rewrite E. discriminate.
Qed.

Lemma file_content_ok_only_witness :
  Some (str "lib/util.rs") = Some (str "lib/util.rs")
  /\ str "lib/util.rs" <> []
  /\ startsWith (Path.join [dirname RoundTrip.nested_host; str "lib/util.rs"])
       (dirname RoundTrip.nested_host) = true
  /\ exists bytes,
      lookup (root RoundTrip.nested_host)
        (Path.segments
           (Path.join [dirname RoundTrip.nested_host; str "lib/util.rs"]))
      = Some (File bytes (str "fn util() {}")).
Proof.
  apply (file_content_ok_only RoundTrip.nested_host (Some (str "lib/util.rs"))
           (str "fn util() {}") (str "lib/util.rs")).
  reflexivity.
Defined.




(** *** Requests with stray separators *)

Lemma endsWith_after (a p : jsstr) (c : N) :
  p <> [] -> endsWith (a ++ p) [c] = endsWith p [c].
Proof.
  intros Hne. unfold endsWith. rewrite rev_app_distr.
  destruct (rev p) as [|x t] eqn:E.
  - apply (f_equal (@rev N)) in E. rewrite rev_involutive in E. contradiction.
  - reflexivity.
Qed.

(** Joining any text made of plain names, with separators anywhere but at
    its end, to a directory: the names are appended to the directory's. *)
Lemma join_text dsegs (p : jsstr) :
  forallb valid_name dsegs = true ->
  forallb valid_name (Path.segments p) = true ->
  Path.segments p <> [] ->
  endsWith p [Path.sep] = false ->
  Path.join [absolute dsegs; p] = absolute (dsegs ++ Path.segments p).
Proof.
  intros Hd Hr Hne He.
  assert (Hp : p <> []) by (intros ->; now apply Hne).
  unfold Path.join. cbn [filter]. change (truthy (absolute dsegs)) with true.
  cbv iota. destruct p as [|x rest] eqn:E; [contradiction|]. rewrite <- E in *.
  replace (truthy p) with true by (now rewrite E).
  change (JsString.join [Path.sep] [absolute dsegs; p])
    with (absolute dsegs ++ Path.sep :: p).
  assert (Hseg : Path.segments (absolute dsegs ++ Path.sep :: p)
                 = dsegs ++ Path.segments p)
    by (now rewrite segments_app, segments_absolute).
  assert (Hall : forallb valid_name (dsegs ++ Path.segments p) = true)
    by (now rewrite forallb_valid_app, Hd, Hr).
  unfold Path.normalize.
  change (absolute dsegs ++ Path.sep :: p)
    with (Path.sep :: (JsString.join [Path.sep] dsegs ++ Path.sep :: p)) at 1.
  cbv iota.
  change (Path.sep :: (JsString.join [Path.sep] dsegs ++ Path.sep :: p))
    with (absolute dsegs ++ Path.sep :: p).
  replace (Path.isAbsolute (absolute dsegs ++ Path.sep :: p))
    with true by reflexivity.
  rewrite normalizeString_valid by (now rewrite Hseg).
  rewrite Hseg.
  replace (endsWith (absolute dsegs ++ Path.sep :: p) [Path.sep]) with false.
  2:{ symmetry.
      replace (absolute dsegs ++ Path.sep :: p)
        with ((absolute dsegs ++ [Path.sep]) ++ p)
        by (now rewrite <- app_assoc).
      now rewrite endsWith_after. }
  assert (Hne' : dsegs ++ Path.segments p <> []).
  { intros Happ. apply app_eq_nil in Happ as [_ Happ]. contradiction. }
  pose proof (join_truthy _ Hall Hne') as Ht.
  destruct (JsString.join [Path.sep] (dsegs ++ Path.segments p)) eqn:Ej;
    [discriminate|].
  unfold absolute. now rewrite Ej.
Qed.

(** X8: separators in front of the requested path, or repeated inside it,
    make no difference.  Below a service root with a plain absolute path, a
    request made of plain names reads the file those names lead to from the
    root; in particular a path that looks absolute is read below the
    service root, not from the root of the file system. *)
Theorem file_content_stray_separators (h : host) dsegs (p : jsstr) bytes content :
  dirname h = absolute dsegs ->
  forallb valid_name dsegs = true ->
  forallb valid_name (Path.segments p) = true ->
  Path.segments p <> [] ->
  endsWith p [Path.sep] = false ->
  lookup (root h) (dsegs ++ Path.segments p) = Some (File bytes content) ->
  file_content h (Some p) = res_json (Content content p).
Proof.
  intros HD Hd Hr Hne He Hl.
  assert (Hall : forallb valid_name (dsegs ++ Path.segments p) = true)
    by (now rewrite forallb_valid_app, Hd, Hr).
  apply file_content_read.
  - intros ->. now apply Hne.
  - rewrite HD, join_text by assumption. apply startsWith_below.
  - rewrite HD, join_text by assumption.
    apply (FsFacts.readFileSync_file _ _ bytes content).
    + now rewrite segments_absolute.
    + apply FsFacts.endsWith_absolute; [assumption|].
      intros E. apply app_eq_nil in E as [_ E]. contradiction.
Qed.

Definition passwd_host : host :=
  {| dirname := str "/srv/app"; cwd := str "/";
     root :=
       Dir [(str "etc", Dir [(str "passwd", File 5 (str "root:"))]);
            (str "srv",
             Dir [(str "app",
                   Dir [(str "etc",
                         Dir [(str "passwd", File 4 (str "mine"))])])])];
     GROQ_API_KEY := None |}.

Lemma file_content_stray_separators_witness :
  file_content passwd_host (Some (str "/etc//passwd"))
  = res_json (Content (str "mine") (str "/etc//passwd")).
Proof.
  apply (file_content_stray_separators passwd_host [str "srv"; str "app"]
           (str "/etc//passwd") 4 (str "mine")); try reflexivity.
  discriminate.
Defined.

(** *** What the gate compares *)

Definition sep_free (s : jsstr) : bool := negb (existsb (N.eqb Path.sep) s).

Lemma valid_sep_free n : valid_name n = true -> sep_free n = true.
Proof.
  intros H. apply valid_name_parts in H as (_ & Hs & _).
  unfold sep_free. now rewrite Hs.
Qed.

Lemma sep_free_cons c s :
  sep_free (c :: s) = true -> (Path.sep =? c) = false /\ sep_free s = true.
Proof.
  unfold sep_free. cbn [existsb]. rewrite negb_true_iff, orb_false_iff.
  intros [Hc Hs]. now rewrite Hs.
Qed.

(** A pattern without a separator cannot see past the first separator. *)
Lemma startsWith_before_sep (d r x : jsstr) :
  sep_free d = true ->
  startsWith (r ++ Path.sep :: x) d = startsWith r d.
Proof.
  revert r. induction d as [|c d IH]; intros r Hd; [reflexivity|].
  apply sep_free_cons in Hd as [Hc Hd].
  destruct r as [|y r]; cbn [app startsWith].
  - rewrite N.eqb_sym in Hc. now rewrite Hc.
  - now rewrite (IH r Hd).
Qed.

(** A text without a separator does not start with a pattern that holds
    one. *)
Lemma startsWith_through_sep (r i P : jsstr) :
  sep_free r = true -> startsWith r (i ++ Path.sep :: P) = false.
Proof.
  revert r. induction i as [|c i IH]; intros r Hr.
  - destruct r as [|y r]; [reflexivity|].
    apply sep_free_cons in Hr as [Hy _]. cbn [app startsWith]. now rewrite Hy.
  - destruct r as [|y r]; [reflexivity|].
    apply sep_free_cons in Hr as [_ Hr]. cbn [app startsWith].
    rewrite (IH r Hr). apply andb_false_r.
Qed.

(** Up to the first separator, text and pattern are compared as wholes. *)
Lemma startsWith_segment (r i J P : jsstr) :
  sep_free r = true -> sep_free i = true ->
  startsWith (r ++ Path.sep :: J) (i ++ Path.sep :: P)
  = eqb r i && startsWith J P.
Proof.
  revert r. induction i as [|c i IH]; intros r Hr Hi.
  - destruct r as [|y r]; cbn [app startsWith eqb].
    + now rewrite N.eqb_refl.
    + apply sep_free_cons in Hr as [Hy _]. now rewrite Hy.
  - apply sep_free_cons in Hi as [Hc Hi].
    destruct r as [|y r]; cbn [app startsWith eqb].
    + rewrite N.eqb_sym in Hc. now rewrite Hc.
    + apply sep_free_cons in Hr as [_ Hr].
      rewrite (IH r Hr Hi), (N.eqb_sym c y). now rewrite andb_assoc.
Qed.

Lemma join_cons2 a b r :
  JsString.join [Path.sep] (a :: b :: r)
  = a ++ Path.sep :: JsString.join [Path.sep] (b :: r).
Proof. reflexivity. Qed.

(** The text of a directory's path is a prefix of the text of another path
    exactly when that path has the directory's segments, but for the last
    one, of which it only needs to have a segment that starts with it. *)
Lemma startsWith_join init d rs :
  forallb valid_name init = true -> valid_name d = true ->
  forallb valid_name rs = true ->
  startsWith (JsString.join [Path.sep] rs) (JsString.join [Path.sep] (init ++ [d]))
  = true
  <-> exists r rest, rs = init ++ r :: rest /\ startsWith r d = true.
Proof.
  revert rs. induction init as [|i init IH]; intros rs Hi Hd Hrs.
  - cbn [app JsString.join].
    destruct rs as [|r [|r2 rest]].
    + apply valid_name_parts in Hd as (Ht & _). destruct d; [discriminate|].
      split; [discriminate | intros (r & rest & H & _); discriminate].
    + cbn [JsString.join]. split.
      * intros H. exists r, []. auto.
      * intros (r' & rest & [= -> <-] & H). exact H.
    + rewrite join_cons2, startsWith_before_sep by (now apply valid_sep_free).
      split.
      * intros H. exists r, (r2 :: rest). auto.
      * intros (r' & rest' & [= -> <-] & H). exact H.
  - cbn [forallb] in Hi. apply andb_prop in Hi as [Hi Hinit].
    assert (Hpat : JsString.join [Path.sep] ((i :: init) ++ [d])
                   = i ++ Path.sep :: JsString.join [Path.sep] (init ++ [d])).
    { cbn [app]. destruct init; reflexivity. }
    rewrite Hpat.
    destruct rs as [|r [|r2 rest]].
    + split; [|intros (r & rest & H & _); discriminate].
      cbn [JsString.join]. destruct i; discriminate.
    + cbn [JsString.join]. cbn [forallb] in Hrs. apply andb_prop in Hrs as [Hr _].
      rewrite startsWith_through_sep by (now apply valid_sep_free).
      split; [discriminate|].
      intros (r' & rest & H & _). injection H as _ H.
      destruct init; discriminate.
    + cbn [forallb] in Hrs. apply andb_prop in Hrs as [Hr Hrest].
      rewrite join_cons2, startsWith_segment by (now apply valid_sep_free).
      rewrite andb_true_iff, eqb_eq, (IH (r2 :: rest) Hinit Hd Hrest).
      split.
      * intros [-> (r' & rest' & -> & H)]. exists r', rest'. auto.
      * intros (r' & rest' & [= -> ->] & H). split; [reflexivity|eauto].
Qed.

(** X9: what the gate checks.  Under a service root [/…/d], a request whose
    joined path is made of plain names is refused with 403 exactly when that
    path does not go through the root's parent directories and then through
    a name that starts with [d]: parents and unrelated directories are
    refused; a sibling whose name starts with [d] is not. *)
Theorem file_content_forbidden_iff (h : host) init d rs (p : jsstr) :
  dirname h = absolute (init ++ [d]) ->
  forallb valid_name init = true -> valid_name d = true ->
  forallb valid_name rs = true ->
  p <> [] ->
  Path.join [dirname h; p] = absolute rs ->
  file_content h (Some p) = forbidden
  <-> ~ exists r rest, rs = init ++ r :: rest /\ startsWith r d = true.
Proof.
  intros HD Hi Hd Hrs Hp Hj.
  rewrite <- (startsWith_join init d rs Hi Hd Hrs).
  assert (Hgate : startsWith (Path.join [dirname h; p]) (dirname h)
                  = startsWith (JsString.join [Path.sep] rs)
                      (JsString.join [Path.sep] (init ++ [d]))).
  { rewrite Hj, HD. unfold absolute. cbn [startsWith].
    now rewrite N.eqb_refl. }
  unfold file_content. destruct p as [|x rest] eqn:E; [contradiction|].
  rewrite <- E in *. rewrite Hgate.
  destruct (startsWith (JsString.join [Path.sep] rs)
              (JsString.join [Path.sep] (init ++ [d]))); cbn [negb try_catch].
  - split; [|intros H; now contradiction H].
    destruct (readFileSync (root h) (Path.join [dirname h; p]));
      cbn [bind try_catch]; discriminate.
  - split; [discriminate | reflexivity].
Qed.

Lemma file_content_forbidden_iff_witness :
  file_content passwd_host (Some (str "../../etc/passwd")) = forbidden
  /\ file_content passwd_host (Some (str "..")) = forbidden.
Proof.
  split.
  - apply (proj2 (file_content_forbidden_iff passwd_host [str "srv"] (str "app")
                    [str "etc"; str "passwd"] (str "../../etc/passwd")
                    eq_refl eq_refl eq_refl eq_refl
                    ltac:(discriminate) eq_refl)).
    intros (r & rest & H & _). discriminate.
  - apply (proj2 (file_content_forbidden_iff passwd_host [str "srv"] (str "app")
                    [str "srv"] (str "..")
                    eq_refl eq_refl eq_refl eq_refl
                    ltac:(discriminate) eq_refl)).
    intros (r & rest & H & _). discriminate.
Defined.

End FetcherFacts.

(** ** The Conversion Proxy's calls and answers *)

Module ProxyFacts.

(** X10: the completion service is called at most once for a request, and
    it is called exactly when the credential is configured and the request
    carries a non-empty [code]. *)
Theorem convert_calls (h : host) (groq : completion_request -> outcome value)
  (b : convert_body) :
  (List.length (fst (convert h groq b)) <= 1)%nat
  /\ (fst (convert h groq b) <> [] <->
      truthy_opt (GROQ_API_KEY h) = true /\ truthy_opt (code b) = true).
Proof.
  unfold convert.
  destruct (GROQ_API_KEY h) as [[|k key]|]; cbn [fst List.length truthy_opt truthy];
    try (split; [lia | split; [intros H; now contradiction H | intros [H _]; discriminate]]).
  destruct (code b) as [[|c src]|]; cbn [fst List.length truthy_opt truthy];
    try (split; [lia | split; [intros H; now contradiction H | intros [_ H]; discriminate]]).
  split; [lia | split; [auto | discriminate]].
Qed.

(** A 200 answer of the proxy comes from a completion that could be read. *)
Lemma convert_ok_inv (h : host) (groq : completion_request -> outcome value)
  (b : convert_body) (luaCode : jsstr) (fp : option jsstr) :
  snd (convert h groq b) = res_json (Converted luaCode fp) ->
  exists key src data text,
    GROQ_API_KEY h = Some key /\ code b = Some src
    /\ groq (request_for key b src) = Resolved data
    /\ first_completion data = Ok text
    /\ luaCode = strip_fences text /\ fp = filePath b.
Proof.
  unfold convert.
  destruct (GROQ_API_KEY h) as [[|k key]|]; cbn [snd]; try discriminate.
  destruct (code b) as [[|c src]|]; cbn [snd]; try discriminate.
  destruct (groq (request_for (k :: key) b (c :: src))) as [data|err] eqn:Hg;
    cbn [try_catch bind].
  - destruct (first_completion data) as [text|err] eqn:Hf; cbn [try_catch bind].
    + intros [= <- <-]. exists (k :: key), (c :: src), data, text. auto 10.
    + unfold Proxy.failure, res_status, res_json. intros [= _ H]. 
  - unfold Proxy.failure, res_status, res_json. intros [= _ H].
Qed.

(** X11: the converted code of a 200 answer has no whitespace at either
    end: trimming it changes nothing. *)
Theorem converted_code_is_trimmed (h : host)
  (groq : completion_request -> outcome value) (b : convert_body)
  (luaCode : jsstr) (fp : option jsstr) :
  snd (convert h groq b) = res_json (Converted luaCode fp) ->
  trim luaCode = luaCode.
Proof.
  intros H.
  destruct (convert_ok_inv h groq b luaCode fp H)
    as (key & src & data & text & _ & _ & _ & _ & -> & _).
  unfold strip_fences. apply trim_idem.
Qed.

Lemma converted_code_is_trimmed_witness :
  trim (str "print(1)") = str "print(1)".
Proof.
  apply (converted_code_is_trimmed (bare_host (Some (str "gsk_1")))
           (answers (str "  ```lua" ++ nl :: str "print(1)  " ++ nl :: fence))
           rust_body (str "print(1)") (Some (str "main.rs"))).
  reflexivity.
Defined.

(** Parts of a text. *)
Definition infix (part whole : jsstr) : Prop :=
  exists before after, whole = before ++ part ++ after.

Lemma infix_refl s : infix s s.
Proof. exists [], []. now rewrite app_nil_r. Qed.

Lemma infix_trans a b c : infix a b -> infix b c -> infix a c.
Proof.
  intros (x & y & ->) (u & v & ->). exists (u ++ x), (y ++ v).
  now rewrite <- !app_assoc.
Qed.

Lemma infix_suffix a s : infix s (a ++ s).
Proof. exists a, []. now rewrite app_nil_r. Qed.

Lemma infix_prefix s z : infix s (s ++ z).
Proof. exists [], z. reflexivity. Qed.

Lemma infix_skipn n s : infix (skipn n s) s.
Proof.
  rewrite <- (firstn_skipn n s) at 2. apply infix_suffix.
Qed.

Lemma infix_dropEnd n s : infix (dropEnd n s) s.
Proof.
  unfold dropEnd. rewrite <- (rev_involutive s) at 2.
  rewrite <- (firstn_skipn n (rev s)) at 2. rewrite rev_app_distr.
  apply infix_prefix.
Qed.

Lemma infix_trimStart s : infix (trimStart s) s.
Proof.
  induction s as [|c r IH]; [apply infix_refl|].
  cbn [trimStart]. destruct (is_space c); [|apply infix_refl].
  eapply infix_trans; [exact IH|]. exact (infix_suffix [c] r).
Qed.

Lemma infix_rev a b : infix a b -> infix (rev a) (rev b).
Proof.
  intros (x & y & ->). exists (rev y), (rev x).
  now rewrite !rev_app_distr, <- app_assoc.
Qed.

Lemma infix_trim s : infix (trim s) s.
Proof.
  unfold trim, trimEnd.
  eapply infix_trans; [|apply infix_trimStart].
  rewrite <- (rev_involutive (trimStart s)) at 2.
  apply infix_rev, infix_trimStart.
Qed.

Lemma infix_skip_nl s : infix (skip_nl s) s.
Proof.
  destruct s as [|c r]; [apply infix_refl|].
  cbn [skip_nl]. destruct (c =? nl); [exact (infix_suffix [c] r) | apply infix_refl].
Qed.

Lemma infix_strip_fences (s : jsstr) : infix (strip_fences s) s.
Proof.
  unfold strip_fences.
  eapply infix_trans; [apply infix_trim|].
  eapply infix_trans.
  { unfold strip_close_fence.
    destruct (endsWith _ (nl :: fence));
      [apply infix_dropEnd | destruct (endsWith _ fence);
                             [apply infix_dropEnd | apply infix_refl]]. }
  eapply infix_trans.
  { unfold strip_open_fence. destruct (startsWith_ci _ fence);
      [|apply infix_refl].
    eapply infix_trans; [apply infix_skip_nl | apply infix_skipn]. }
  unfold strip_lua_fence. destruct (startsWith_ci s _); [|apply infix_refl].
  eapply infix_trans; [apply infix_skip_nl | apply infix_skipn].
Qed.

(** X12: cleaning never invents or reorders text.  The converted code is
    one contiguous part of the text of the completion. *)
Theorem clean_completion_is_a_part (content : jsstr) :
  infix (clean_completion content) content.
Proof.
  unfold clean_completion.
  eapply infix_trans; [apply infix_strip_fences | apply infix_trim].
Qed.

(** Reading the completion throws errors of the process only: none carries
    a response. *)
Lemma get_throws_plain v k err :
  Json.get v k = Throw err -> err_response err = None.
Proof.
  unfold Json.get. destruct (Json.nullish v); [|discriminate].
  now intros [= <-].
Qed.

Lemma get0_throws_plain v err :
  Json.get0 v = Throw err -> err_response err = None.
Proof.
  destruct v as [| | b | n | [|c s] | [|x l] | m]; cbn [Json.get0];
    try discriminate; apply get_throws_plain.
Qed.

Lemma first_completion_throws_plain data err :
  first_completion data = Throw err -> err_response err = None.
Proof.
  unfold first_completion.
  destruct (Json.get data (str "choices")) as [choices|e] eqn:H1;
    cbn [bind]; [|intros [= <-]; exact (get_throws_plain _ _ _ H1)].
  destruct (Json.get0 choices) as [first|e] eqn:H2;
    cbn [bind]; [|intros [= <-]; exact (get0_throws_plain _ _ H2)].
  destruct (Json.get first (str "message")) as [message|e] eqn:H3;
    cbn [bind]; [|intros [= <-]; exact (get_throws_plain _ _ _ H3)].
  destruct (Json.get message (str "content")) as [content|e] eqn:H4;
    cbn [bind]; [|intros [= <-]; exact (get_throws_plain _ _ _ H4)].
  destruct content; cbn [call_trim]; try discriminate;
    try (intros [= <-]; reflexivity).
Qed.

Lemma failure_plain err :
  err_response err = None ->
  Proxy.failure err = res_status 500 (Error (VStr (err_message err))).
Proof. unfold Proxy.failure. now intros ->. Qed.

(** X13: a 2xx answer of the completion service from which no completion
    text can be read (no [choices], an empty [choices], no [message], a
    [content] that is not a string) is answered 500 with the text of the
    error raised while reading it, never 200. *)
Theorem convert_unreadable_completion (h : host)
  (groq : completion_request -> outcome value) (b : convert_body)
  (key src : jsstr) (data : value) :
  GROQ_API_KEY h = Some key -> key <> [] ->
  code b = Some src -> src <> [] ->
  groq (request_for key b src) = Resolved data ->
  (forall text, first_completion data <> Ok text) ->
  exists message,
    first_completion data = Throw (plain_error message)
    /\ snd (convert h groq b) = res_status 500 (Error (VStr message)).
Proof.
  intros Hk Hkey Hc Hsrc Hg Hno.
  destruct (first_completion data) as [text|err] eqn:Hf;
    [destruct (Hno text eq_refl)|].
  pose proof (first_completion_throws_plain data err Hf) as Hplain.
  exists (err_message err). split.
  - destruct err as [m r]. cbn in Hplain. subst r. reflexivity.
  - rewrite (convert_catches h groq b key src Hk Hkey Hc Hsrc err)
      by (right; eauto).
    now apply failure_plain.
Qed.

Lemma convert_unreadable_completion_witness :
  exists message,
    first_completion (VObj [(str "choices", VArr [])])
    = Throw (plain_error message)
    /\ snd (convert (bare_host (Some (str "gsk_1")))
              (fun _ => Resolved (VObj [(str "choices", VArr [])])) rust_body)
       = res_status 500 (Error (VStr message)).
Proof.
  apply (convert_unreadable_completion (bare_host (Some (str "gsk_1")))
           (fun _ => Resolved (VObj [(str "choices", VArr [])])) rust_body
           (str "gsk_1") (str "fn main() {}") (VObj [(str "choices", VArr [])]));
    try reflexivity; try discriminate.
Defined.



End ProxyFacts.

(** ** Content Fetcher, remote variant *)

Module RemoteContent.

Record content_query := {
  owner : option jsstr;
  repo : option jsstr;
  path : option jsstr
}.

Record content_request := {
  content_url : jsstr;
  content_user_agent : jsstr
}.

(** The request for the content of [path] in [owner/repo]; the three texts
    go into the address as they came. *)
Definition content_request_for (q : content_query) : content_request :=
  {| content_url :=
       str "https://api.github.com/repos/" ++ interpolate (owner q)
       ++ str "/" ++ interpolate (repo q) ++ str "/contents/"
       ++ interpolate (path q);
     content_user_agent := str "LuaPure-App" |}.

Section Decoding.

(** [Buffer.from(v, "base64").toString("utf-8")], the platform's decoding of
    whatever the body holds under [content]. *)
Variable buffer_text : value -> result jsstr.

(** [GET /api/file-content], remote variant; [github] is the hosting API.
    Past the first check [path] is a string, which the answer repeats. *)
Definition file_content (github : content_request -> outcome value)
  (q : content_query) : served content_request :=
  if negb (truthy_opt (owner q)) || negb (truthy_opt (repo q))
     || negb (truthy_opt (path q)) then
    ([], res_status 400 (Error (VStr (str "Missing owner, repo, or path"))))
  else
    let call := content_request_for q in
    ([call],
     try_catch
       (match github call with
        | Resolved data =>
            encoded <- Json.get data (str "content") ;;
            content <- buffer_text encoded ;;
            Ok (res_json (Content content (interpolate (path q))))
        | Rejected err => Throw err
        end)%js
       Remote.failure).

End Decoding.

End RemoteContent.

(** ** The remote routes' answers *)

Module RemoteFacts.

Definition missing_repo : response :=
  res_status 400 (Error (VStr (str "Missing owner or repo"))).

Definition missing_content : response :=
  res_status 400 (Error (VStr (str "Missing owner, repo, or path"))).

(** X15: the remote routes check their parameters first.  A listing request
    without [owner] or [repo], and a content request without [owner],
    [repo] or [path] (absent or empty), is answered 400 and the hosting API
    is not called. *)
Theorem remote_missing_parameters :
  (forall github q,
      truthy_opt (Remote.owner q) = false \/ truthy_opt (Remote.repo q) = false ->
      Remote.repo_files github q = ([], missing_repo))
  /\ (forall buffer_text github q,
        truthy_opt (RemoteContent.owner q) = false
        \/ truthy_opt (RemoteContent.repo q) = false
        \/ truthy_opt (RemoteContent.path q) = false ->
        RemoteContent.file_content buffer_text github q = ([], missing_content)).
Proof.
  split.
  - intros github q H. unfold Remote.repo_files.
    destruct H as [-> | ->]; cbn [negb orb]; [reflexivity|].
    now rewrite orb_true_r.
  - intros buffer_text github q H. unfold RemoteContent.file_content.
    destruct H as [-> | [-> | ->]]; cbn [negb orb];
      rewrite ?orb_true_r; reflexivity.
Qed.

Definition no_hosting (A : Type) : A -> outcome value :=
  fun _ => Rejected (plain_error (str "getaddrinfo ENOTFOUND api.github.com")).

Lemma remote_missing_parameters_witness :
  Remote.repo_files (fun _ => Resolved [])
    {| Remote.owner := Some (str "PY44N"); Remote.repo := Some [];
       Remote.branch := Some (str "main") |}
  = ([], missing_repo)
  /\ RemoteContent.file_content (fun _ => Ok []) (no_hosting _)
       {| RemoteContent.owner := Some (str "PY44N");
          RemoteContent.repo := Some (str "LuaObfuscatorV2");
          RemoteContent.path := None |}
     = ([], missing_content).
Proof.
  destruct remote_missing_parameters as [Hfiles Hcontent].
  split.
  - apply Hfiles. right. reflexivity.
  - apply Hcontent. right. right. reflexivity.
Defined.

(** The status and the message of the remote routes' [catch] block. *)
Lemma remote_failure_reading (err : js_error) :
  (forall up, err_response err = Some up -> resp_status up <> 0 ->
              status (Remote.failure err) = resp_status up)
  /\ (err_response err = None -> status (Remote.failure err) = 500)
  /\ (Json.truthy (generic_message err) = true ->
      json (Remote.failure err) = Error (generic_message err))
  /\ (Json.truthy (generic_message err) = false ->
      json (Remote.failure err) = Error (VStr (err_message err))).
Proof.
  unfold Remote.failure. cbn [status json res_status].
  fold (upstream_data err). fold (generic_message err). unfold Json.or.
  repeat split.
  - intros up -> Hst. destruct (N.eqb_spec (resp_status up) 0);
      [contradiction | reflexivity].
  - intros ->. reflexivity.
  - intros ->. reflexivity.
  - intros ->. reflexivity.
Qed.

(** X16: failures of the hosting API.  When a remote route's call is
    rejected, the status sent is the upstream response's status when the
    error carries a response, and 500 otherwise; the message is the body's
    [message] when that is truthy, and the error's own text otherwise.  A
    nested [error.message], which the Conversion Proxy prefers, is not
    looked at here. *)
Theorem remote_failure_mapping (err : js_error) :
  (forall github q,
      truthy_opt (Remote.owner q) = true -> truthy_opt (Remote.repo q) = true ->
      github (Remote.tree_request_for q) = Rejected err ->
      snd (Remote.repo_files github q) = Remote.failure err)
  /\ (forall buffer_text github q,
        truthy_opt (RemoteContent.owner q) = true ->
        truthy_opt (RemoteContent.repo q) = true ->
        truthy_opt (RemoteContent.path q) = true ->
        github (RemoteContent.content_request_for q) = Rejected err ->
        snd (RemoteContent.file_content buffer_text github q)
        = Remote.failure err)
  /\ (forall up, err_response err = Some up -> resp_status up <> 0 ->
                 status (Remote.failure err) = resp_status up)
  /\ (err_response err = None -> status (Remote.failure err) = 500)
  /\ (Json.truthy (generic_message err) = true ->
      json (Remote.failure err) = Error (generic_message err))
  /\ (Json.truthy (generic_message err) = false ->
      json (Remote.failure err) = Error (VStr (err_message err))).
Proof.
  split; [|split; [|apply remote_failure_reading]].
  - intros github q Ho Hr Hg. unfold Remote.repo_files.
    rewrite Ho, Hr, Hg. reflexivity.
  - intros buffer_text github q Ho Hr Hp Hg.
    unfold RemoteContent.file_content. rewrite Ho, Hr, Hp, Hg. reflexivity.
Qed.

Definition not_found : js_error :=
  {| err_message := str "Request failed with status code 404";
     err_response :=
       Some {| resp_status := 404;
               resp_data :=
                 VObj [(str "error", VObj [(str "message", VStr (str "inner"))]);
                       (str "message", VStr (str "Not Found"))] |} |}.

Definition nested_only : js_error :=
  {| err_message := str "Request failed with status code 403";
     err_response :=
       Some {| resp_status := 403;
               resp_data :=
                 VObj [(str "error",
                        VObj [(str "message", VStr (str "rate limit"))])] |} |}.

Lemma remote_failure_mapping_witness :
  snd (Remote.repo_files (fun _ => Rejected not_found) ceiling_query)
  = res_status 404 (Error (VStr (str "Not Found")))
  /\ Remote.failure nested_only
     = res_status 403 (Error (VStr (str "Request failed with status code 403"))).
Proof.
  split.
  - destruct (remote_failure_mapping not_found)
      as (Hfiles & _ & Hst & _ & Hmsg & _).
    rewrite (Hfiles (fun _ => Rejected not_found) ceiling_query
               eq_refl eq_refl eq_refl).
    specialize (Hst _ eq_refl ltac:(discriminate)). specialize (Hmsg eq_refl).
    destruct (Remote.failure not_found) as [st js].
    cbn [status json] in Hst, Hmsg. now rewrite Hst, Hmsg.
  - destruct (remote_failure_mapping nested_only)
      as (_ & _ & Hst & _ & _ & Hmsg).
    specialize (Hst _ eq_refl ltac:(discriminate)). specialize (Hmsg eq_refl).
    destruct (Remote.failure nested_only) as [st js].
    cbn [status json] in Hst, Hmsg. now rewrite Hst, Hmsg.
Defined.

(** X17: a listing request without a [branch], or with an empty one, is
    the request for the branch [main]: the same call is made and the same
    answer given. *)
Theorem remote_branch_default github (q : Remote.repo_query) :
  truthy_opt (Remote.branch q) = false ->
  Remote.repo_files github q
  = Remote.repo_files github
      {| Remote.owner := Remote.owner q; Remote.repo := Remote.repo q;
         Remote.branch := Some (str "main") |}.
Proof.
  intros Hb.
  assert (Hreq : Remote.tree_request_for q
                 = Remote.tree_request_for
                     {| Remote.owner := Remote.owner q;
                        Remote.repo := Remote.repo q;
                        Remote.branch := Some (str "main") |}).
  { unfold Remote.tree_request_for.
    cbn [Remote.owner Remote.repo Remote.branch].
    replace (or_else (Remote.branch q) (str "main"))
      with (or_else (Some (str "main")) (str "main")); [reflexivity|].
    destruct (Remote.branch q) as [[|c b]|];
      [reflexivity | discriminate | reflexivity]. }
  unfold Remote.repo_files. rewrite <- Hreq. reflexivity.
Qed.

Lemma remote_branch_default_witness :
  Remote.repo_files (fun _ => Resolved ceiling_tree) ceiling_query
  = Remote.repo_files (fun _ => Resolved ceiling_tree)
      {| Remote.owner := Some (str "PY44N");
         Remote.repo := Some (str "LuaObfuscatorV2");
         Remote.branch := Some (str "main") |}.
Proof.
  apply (remote_branch_default (fun _ => Resolved ceiling_tree) ceiling_query).
  reflexivity.
Defined.

(** X18: the remote listing keeps the items whose [type] is the text
    [file], and nothing else decides but the size: every entry comes from
    such an item, with the item's path, size and sha, and a tree none of
    whose items has that type (one whose items are typed [blob] and [tree],
    say) is answered with an empty listing and a total of 0. *)
Theorem remote_listing_types github (q : Remote.repo_query) tree :
  truthy_opt (Remote.owner q) = true ->
  truthy_opt (Remote.repo q) = true ->
  github (Remote.tree_request_for q) = Resolved tree ->
  exists files,
    Remote.repo_files github q
    = ([Remote.tree_request_for q], res_json (Files files (List.length files)))
    /\ (forall e, In e files ->
          exists item, In item tree
                       /\ Remote.item_type item = str "file"
                       /\ e = Remote.file_entry item)
    /\ ((forall item, In item tree -> Remote.item_type item <> str "file") ->
        files = []).
Proof.
  intros Ho Hr Hg. unfold Remote.repo_files. rewrite Ho, Hr, Hg.
  cbn [negb orb try_catch].
  eexists. split; [reflexivity|]. split.
  - intros e He. apply in_map_iff in He as (item & <- & Hi).
    apply filter_In in Hi as [Hi _]. apply filter_In in Hi as [Hi Hty].
    apply eqb_eq in Hty. eauto.
  - intros Hnone.
    replace (filter (fun item => eqb (Remote.item_type item) (str "file")) tree)
      with (@nil Remote.tree_item); [reflexivity|].
    symmetry. clear Hg. induction tree as [|item tree IH]; [reflexivity|].
    cbn [filter].
    destruct (eqb (Remote.item_type item) (str "file")) eqn:E.
    + apply eqb_eq in E. destruct (Hnone item (or_introl eq_refl) E).
    + apply IH. intros it Hit. apply Hnone. now right.
Qed.

Definition blob_tree : list Remote.tree_item :=
  [ {| Remote.item_type := str "blob"; Remote.item_path := str "src/main.rs";
       Remote.item_size := Some 120; Remote.item_sha := Some (str "a1") |};
    {| Remote.item_type := str "tree"; Remote.item_path := str "src";
       Remote.item_size := None; Remote.item_sha := Some (str "b2") |} ].

Lemma remote_listing_types_witness :
  Remote.repo_files (fun _ => Resolved blob_tree) ceiling_query
  = ([Remote.tree_request_for ceiling_query], res_json (Files [] 0)).
Proof.
  destruct (remote_listing_types (fun _ => Resolved blob_tree) ceiling_query
              blob_tree eq_refl eq_refl eq_refl) as (files & Heq & _ & Hnone).
  rewrite Heq, Hnone; [reflexivity|].
  intros item [<- | [<- | []]]; discriminate.
Defined.

End RemoteFacts.

(** ** Start-up *)

Module Startup.

(** [process.env.PORT || 3000], as the log line shows it. *)
Definition PORT (env_port : option jsstr) : jsstr :=
  or_else env_port (str "3000").

Inductive console :=
| Log (line : jsstr)
| Warn (line : jsstr).

Definition warning : jsstr :=
  [9888; 65039]
  ++ str "  GROQ_API_KEY is not set! Conversion endpoint won't work.".

(** The callback of [app.listen]: what it writes to the console. *)
Definition listening (env_port : option jsstr) (h : host) : list console :=
  Log (str "LuaPure server running on port " ++ PORT env_port)
  :: (if negb (truthy_opt (GROQ_API_KEY h)) then [Warn warning] else []).

(** X19: the credential is judged the same way at start-up, by the health
    probe and by the proxy.  The warning is written at start-up exactly
    when the health probe reports [groqConfigured] false, and exactly when
    every convert request is answered with the 500 of a missing credential
    without a call. *)
Theorem configured_consistently (env_port : option jsstr) (h : host) :
  (In (Warn warning) (listening env_port h)
   <-> health h = res_json (Health (str "ok") false))
  /\ (In (Warn warning) (listening env_port h)
      <-> forall groq b, convert h groq b = ([], unconfigured)).
Proof.
  unfold listening, health, convert.
  destruct (GROQ_API_KEY h) as [[|c key]|]; cbn [truthy_opt truthy negb In].
  - split; split; auto.
  - split; split.
    + intros [H | []]; discriminate.
    + discriminate.
    + intros [H | []]; discriminate.
    + intros H. specialize (H unreachable rust_body). discriminate.
  - split; split; auto.
Qed.

End Startup.

Example prompt_fallbacks :
  Proxy.prompt {| filePath := None; code := Some (str "x = 1");
                  originalLang := None |} (str "x = 1")
  = str "You are a Lua code conversion expert. Convert the following code into pure Lua 5.1 code.

Rules:
- Output ONLY the converted Lua code. No explanations, no markdown, no comments unless they are necessary.
- The converted code must be valid Lua 5.1 syntax.
- Make it functional and preserve the original logic as much as possible.
- If something cannot be directly translated to Lua, find the closest Lua equivalent.
- Do NOT use any external libraries or modules that are not part of Lua 5.1 standard library.
- If the file is a build config or tool-specific file (like Cargo.toml, package.json), convert its logic/purpose into a Lua script that achieves the same goal where possible.

Original file: undefined
Original language: unknown

Code to convert:
```
x = 1
```

Converted Lua 5.1 code:".
Proof. reflexivity. Qed.
